(** * intrusive::list — a shallow embedding of [intrusive_list.h]

    The header threads a doubly-linked chain through [list_element] nodes
    that live inside caller-owned objects.  Everything the container does is
    pointer surgery on those nodes, so the embedding is a heap of link nodes
    (a finite map from addresses to [prev]/[next] pairs), a record for the
    container's three members, and one Rocq function per member function,
    written statement by statement.

    Conventions.
    - A pointer is [option positive]; [None] is [nullptr].
    - A [T&] is the address of the [list_element] base of the object
      ([static_cast] between [T*] and [list_element<Tag>*] keeps the
      address).
    - An operation returns [None] when the C++ code dereferences a null or
      dangling pointer, or overflows the signed [size] counter: every such
      execution is undefined behaviour.
    - The two loops ([clear] and a front-to-back traversal) take fuel and
      answer in [outcome], which tells a fault from an exhausted budget. *)

From stdpp Require Import gmap.
From Stdlib Require Import ZArith.

Open Scope Z_scope.

Module Intrusive.

(** ** Link nodes and the heap *)

Abbreviation ptr := (option positive).

(** [struct list_element]: the two members, both defaulting to [nullptr]. *)
Record list_element : Type := mk_element { prev : ptr; next : ptr }.

Global Instance list_element_eq_dec : EqDecision list_element.
Proof. solve_decision. Defined.

(** [list_element() = default]. *)
Definition unlinked : list_element := mk_element None None.

Abbreviation heap := (gmap positive list_element).

(** [*p]: faults on [nullptr] and on an address that holds no node. *)
Definition deref (h : heap) (p : ptr) : option list_element :=
  a ← p; h !! a.

(** [p->prev] and [p->next] as rvalues. *)
Definition get_prev (h : heap) (p : ptr) : option ptr := prev <$> deref h p.
Definition get_next (h : heap) (p : ptr) : option ptr := next <$> deref h p.

(** [p->prev = v] and [p->next = v]. *)
Definition set_prev (h : heap) (p v : ptr) : option heap :=
  a ← p; n ← h !! a; Some (<[a := mk_element v (next n)]> h).
Definition set_next (h : heap) (p v : ptr) : option heap :=
  a ← p; n ← h !! a; Some (<[a := mk_element (prev n) v]> h).

(** [list_element(const list_element& other)], constructing at the fresh
    address [this]: the members start from their default initialisers and
    the body then assigns [prev = other.prev; next = other.next]. *)
Definition copy_construct (h : heap) (this : positive) (other : ptr)
  : option heap :=
  let h0 := <[this := unlinked]> h in
  p ← get_prev h0 other;
  h1 ← set_prev h0 (Some this) p;
  n ← get_next h1 other;
  set_next h1 (Some this) n.

(** [void list_element::unlink()].  Every member access re-reads the heap,
    so the model is right also when [prev] or [next] alias [this]. *)
Definition unlink (h : heap) (this : ptr) : option heap :=
  p ← get_prev h this;
  h1 ← (if p is Some _ then n ← get_next h this; set_next h p n else Some h);
  n ← get_next h1 this;
  h2 ← (if n is Some _ then p' ← get_prev h1 this; set_prev h1 n p'
        else Some h1);
  h3 ← set_next h2 this None;
  set_prev h3 this None.

(** ** Iterators *)

(** [struct list_iterator]: its one member. *)
Record list_iterator : Type := mk_iterator { current : ptr }.

Global Instance list_iterator_eq_dec : EqDecision list_iterator.
Proof. solve_decision. Defined.

(** [operator*] / [operator->]: the node the iterator stands on, seen as
    a [T]. *)
Definition iter_deref (it : list_iterator) : ptr := current it.

(** [operator++()]: [current = current->next; return *this]. *)
Definition pre_incr (h : heap) (it : list_iterator) : option list_iterator :=
  n ← get_next h (current it); Some (mk_iterator n).

(** [operator--()]: [current = current->prev; return *this]. *)
Definition pre_decr (h : heap) (it : list_iterator) : option list_iterator :=
  p ← get_prev h (current it); Some (mk_iterator p).

(** [operator++(int)]: the pair is (returned copy, iterator afterwards). *)
Definition post_incr (h : heap) (it : list_iterator)
  : option (list_iterator * list_iterator) :=
  let this_cpy := it in
  n ← get_next h (current it); Some (this_cpy, mk_iterator n).

(** [operator--(int)]: the body assigns [current = current->next]. *)
Definition post_decr (h : heap) (it : list_iterator)
  : option (list_iterator * list_iterator) :=
  let this_cpy := it in
  n ← get_next h (current it); Some (this_cpy, mk_iterator n).

(** [operator==] / [operator!=] on iterators. *)
Definition iter_eqb (it rhs : list_iterator) : bool :=
  bool_decide (current rhs = current it).
Definition iter_neqb (it rhs : list_iterator) : bool :=
  negb (iter_eqb it rhs).

(** ** The container *)

(** [struct list]: [int size], [list_element<Tag>* head],
    [list_element<Tag>* tail].  The sentinel is the node [tail] designates,
    so the spec's [head == &tail] reads [head = tail] here. *)
Record intrusive_list : Type := mk_list { size : Z; head : ptr; tail : ptr }.

Global Instance intrusive_list_eq_dec : EqDecision intrusive_list.
Proof. solve_decision. Defined.

Abbreviation state := (heap * intrusive_list)%type.

Definition INT_MAX : Z := 2147483647.
Definition INT_MIN : Z := -2147483648.

(** [size++] and [size--] on an [int]: signed overflow is undefined. *)
Definition int_incr (z : Z) : option Z :=
  if decide (z < INT_MAX) then Some (z + 1) else None.
Definition int_decr (z : Z) : option Z :=
  if decide (INT_MIN < z) then Some (z - 1) else None.

(** [list()]: [tail = list_element(); head = &tail;].  Both members are
    pointers, so the two assignments are read the way every other member
    function uses them: [tail] comes to designate a default-constructed
    node, placed at [sentinel], and [head] designates that same node;
    [size] keeps its initialiser [0]. *)
Definition list_new (h : heap) (sentinel : positive) : state :=
  (<[sentinel := unlinked]> h, mk_list 0 (Some sentinel) (Some sentinel)).

(** [list(list&& l)]: the three members are copied from [l] (moving a
    pointer or an [int] copies it); [l] is not written.  The pair is
    (constructed list, [l] afterwards). *)
Definition move_construct (l : intrusive_list)
  : intrusive_list * intrusive_list :=
  (mk_list (size l) (head l) (tail l), l).

(** [operator=(list&& l_)]: [return l_;].  The triple is ([*this]
    afterwards, [l_] afterwards, the list the returned reference names). *)
Definition move_assign (this l_ : intrusive_list)
  : intrusive_list * intrusive_list * intrusive_list :=
  (this, l_, l_).

(** The outcome of a loop run on a budget of iterations. *)
Inductive outcome (A : Type) : Type :=
  | Ret (a : A)
  | Fault
  | OutOfFuel.
Arguments Ret {A} a.
Arguments Fault {A}.
Arguments OutOfFuel {A}.

(** The [while (front != nullptr)] loop of [clear]. *)
Fixpoint clear_loop (fuel : nat) (h : heap) (front : ptr) : outcome heap :=
  match front with
  | None => Ret h
  | Some _ =>
    match fuel with
    | O => OutOfFuel
    | S fuel' =>
      match get_next h front with
      | None => Fault
      | Some front_next =>
        match unlink h front with
        | None => Fault
        | Some h' => clear_loop fuel' h' front_next
        end
      end
    end
  end.

(** [void clear()]: no member of the container is written. *)
Definition clear (fuel : nat) (st : state) : outcome state :=
  match clear_loop fuel st.1 (head st.2) with
  | Ret h' => Ret (h', st.2)
  | Fault => Fault
  | OutOfFuel => OutOfFuel
  end.

(** [void push_back(T& elem)]. *)
Definition push_back (st : state) (elem : positive) : option state :=
  let '(h, l) := st in
  if decide (size l = 0) then
    let head' := Some elem in
    h1 ← set_prev h (tail l) head';
    h2 ← set_next h1 head' (tail l);
    Some (h2, mk_list 1 head' (tail l))
  else
    tp ← get_prev h (tail l);
    h1 ← set_next h tp (Some elem);
    tp' ← get_prev h1 (tail l);
    h2 ← set_prev h1 (Some elem) tp';
    h3 ← set_prev h2 (tail l) (Some elem);
    sz ← int_incr (size l);
    Some (h3, mk_list sz (head l) (tail l)).

(** [void pop_back()]. *)
Definition pop_back (st : state) : option state :=
  let '(h, l) := st in
  if decide (size l = 0) then Some st
  else if decide (size l = 1) then
    h1 ← set_next h (head l) None;
    Some (h1, mk_list 0 (tail l) (tail l))
  else
    tail' ← get_prev h (tail l);
    tn ← get_next h tail';
    h1 ← set_prev h tn None;
    h2 ← set_next h1 tail' None;
    sz ← int_decr (size l);
    Some (h2, mk_list sz (head l) tail').

(** [T& back()]: [*static_cast<T*>(tail)]. *)
Definition back (l : intrusive_list) : ptr := tail l.

(** [void push_front(T& elem)]. *)
Definition push_front (st : state) (elem : positive) : option state :=
  let '(h, l) := st in
  if decide (size l = 0) then
    let tail' := Some elem in
    let head' := Some elem in
    h1 ← set_prev h tail' head';
    h2 ← set_next h1 head' tail';
    Some (h2, mk_list 1 head' tail')
  else
    h1 ← set_prev h (head l) (Some elem);
    h2 ← set_next h1 (Some elem) (head l);
    Some (h2, mk_list (size l) (Some elem) (tail l)).

(** [void pop_front()]. *)
Definition pop_front (st : state) : option state :=
  let '(h, l) := st in
  if decide (size l = 0) then Some st
  else if decide (size l = 1) then
    h1 ← set_prev h (tail l) None;
    h2 ← set_next h1 (head l) None;
    Some (h2, mk_list 0 None None)
  else
    head' ← get_next h (head l);
    hp ← get_prev h head';
    h1 ← set_next h hp None;
    h2 ← set_prev h1 head' None;
    sz ← int_decr (size l);
    Some (h2, mk_list sz head' (tail l)).

(** [T& front()]: [*static_cast<T*>(head)]. *)
Definition front (l : intrusive_list) : ptr := head l.

(** [bool empty()]. *)
Definition empty (l : intrusive_list) : bool := bool_decide (size l = 0).

(** [begin()]: [list_iterator(head)]. *)
Definition begin (l : intrusive_list) : list_iterator := mk_iterator (head l).

(** [end()]: [list_iterator(tail)++], the copy the postfix form hands
    back; the increment itself reads [tail->next]. *)
Definition end_ (h : heap) (l : intrusive_list) : option list_iterator :=
  fst <$> post_incr h (mk_iterator (tail l)).

(** [iterator insert(const_iterator pos, T& elem)]. *)
Definition insert (st : state) (pos : list_iterator) (elem : positive)
  : option (state * list_iterator) :=
  let '(h, l) := st in
  pp ← get_prev h (iter_deref pos);
  h1 ← (if pp is Some _ then set_next h pp (Some elem) else Some h);
  pn ← get_next h1 (iter_deref pos);
  h2 ← (if pn is Some _ then set_prev h1 pn (Some elem) else Some h1);
  pp' ← get_prev h2 (iter_deref pos);
  h3 ← set_prev h2 (Some elem) pp';
  pn' ← get_next h3 (iter_deref pos);
  h4 ← set_next h3 (Some elem) pn';
  Some ((h4, l), mk_iterator (Some elem)).

(** [iterator erase(const_iterator pos)]; the final [return nullptr] is
    the iterator over a null node. *)
Definition erase (st : state) (pos : list_iterator)
  : option (state * list_iterator) :=
  let '(h, l) := st in
  prev_cpy ← get_prev h (iter_deref pos);
  next_cpy ← get_next h (iter_deref pos);
  h1 ← unlink h (iter_deref pos);
  if prev_cpy is Some _ then Some ((h1, l), mk_iterator prev_cpy)
  else if next_cpy is Some _ then Some ((h1, l), mk_iterator next_cpy)
  else Some ((h1, l), mk_iterator None).

(** [for (it = begin(); it != end(); ++it)], collecting [&*it]. *)
Fixpoint traverse (fuel : nat) (h : heap) (it last : list_iterator)
  : outcome (list positive) :=
  if iter_neqb it last then
    match fuel with
    | O => OutOfFuel
    | S fuel' =>
      match iter_deref it, pre_incr h it with
      | Some a, Some it' =>
        match traverse fuel' h it' last with
        | Ret xs => Ret (a :: xs)
        | r => r
        end
      | _, _ => Fault
      end
    end
  else Ret [].

Definition to_list (fuel : nat) (st : state) : outcome (list positive) :=
  match end_ st.1 st.2 with
  | Some last => traverse fuel st.1 (begin st.2) last
  | None => Fault
  end.

(** [bool list_element::operator==(list_element const& elem) const]:
    [elem.prev == prev && elem.next == elem.next], on the two nodes the
    references name. *)
Definition element_eqb (this elem : list_element) : bool :=
  bool_decide (prev elem = prev this) && bool_decide (next elem = next elem).

(** [bool list_element::operator!=(list_element const& elem) const]:
    [elem.prev != prev || elem.next != elem.next]. *)
Definition element_neqb (this elem : list_element) : bool :=
  negb (bool_decide (prev elem = prev this))
  || negb (bool_decide (next elem = next elem)).

(** [~list()]: [clear();]. *)
Definition destroy (fuel : nat) (st : state) : outcome state := clear fuel st.

End Intrusive.

Import Intrusive.

(** ** The container invariant of the data model

    [head == &tail] exactly when [size == 0]; the node built by the
    constructor is still the one [tail] designates; its [next] is null; its
    [prev] is null in an empty list and names a real element (a node other
    than the sentinel) otherwise. *)
Definition list_inv (sentinel : positive) (st : state) : Prop :=
  tail st.2 = Some sentinel
  ∧ (size st.2 = 0 ↔ head st.2 = tail st.2)
  ∧ get_next st.1 (Some sentinel) = Some None
  ∧ (if decide (size st.2 = 0)
     then get_prev st.1 (Some sentinel) = Some None
     else ∃ e, e ≠ sentinel ∧ get_prev st.1 (Some sentinel) = Some (Some e)).

(** ** Concrete programs used as test vectors *)

Module Scenario.
Definition sentinel : positive := 1%positive.
Definition elem_a : positive := 2%positive.
Definition elem_b : positive := 3%positive.
Definition elem_c : positive := 4%positive.
Definition spare : positive := 5%positive.

(** Three caller-owned elements, default-constructed. *)
Definition objects : heap :=
  <[elem_a := unlinked]> (<[elem_b := unlinked]> (<[elem_c := unlinked]> ∅)).

(** [list l;] *)
Definition fresh : state := list_new objects sentinel.

(** [l.push_back(a);] *)
Definition one : option state := push_back fresh elem_a.

(** [l.push_back(a); l.push_back(b);] *)
Definition two : option state := st ← one; push_back st elem_b.

(** A list in the shape the data model describes, holding a, b, c in
    that order: every [next] leads towards the sentinel, every [prev]
    towards the front. *)
Definition chain3 : state :=
  (<[sentinel := mk_element (Some elem_c) None]>
     (<[elem_a := mk_element None (Some elem_b)]>
        (<[elem_b := mk_element (Some elem_a) (Some elem_c)]>
           (<[elem_c := mk_element (Some elem_b) (Some sentinel)]> ∅))),
   mk_list 3 (Some elem_a) (Some sentinel)).
(** The same list, with one more default-constructed element that is on
    no list. *)
Definition chain3_spare : state :=
  (<[spare := unlinked]> chain3.1, chain3.2).
End Scenario.

(** ** Chains

    [dseg h p nodes q]: in [h] the nodes of [nodes] are linked one after
    the other in both directions; the first has [prev = p] and the last
    has [next = q]. *)
Definition next_of (rest : list positive) (q : ptr) : ptr :=
  match rest with
  | [] => q
  | y :: _ => Some y
  end.

Definition prev_of (before : list positive) (p : ptr) : ptr :=
  match last before with
  | Some y => Some y
  | None => p
  end.

Fixpoint dseg (h : heap) (p : ptr) (nodes : list positive) (q : ptr) : Prop :=
  match nodes with
  | [] => True
  | x :: rest =>
    h !! x = Some (mk_element p (next_of rest q)) ∧ dseg h (Some x) rest q
  end.

(** A container holding [xs], front to back, the way the constructor and
    the first [push_back] lay it out: the elements and then the sentinel
    form one chain, null at both ends; [head] is the first node of that
    chain, [tail] the sentinel, [size] the number of elements. *)
Definition well_formed (sentinel : positive) (xs : list positive) (st : state)
  : Prop :=
  NoDup (xs ++ [sentinel])
  ∧ dseg st.1 None (xs ++ [sentinel]) None
  ∧ st.2 = mk_list (Z.of_nat (length xs)) (next_of xs (Some sentinel))
                   (Some sentinel).

(** * Properties *)

(** ** Reading and writing link fields *)

Section HeapFacts.
Implicit Types (h : heap) (a b : positive) (p v : ptr) (n : list_element).

Lemma deref_Some h a : deref h (Some a) = h !! a.
Proof. reflexivity. Qed.

Lemma get_prev_Some h a n : h !! a = Some n → get_prev h (Some a) = Some (prev n).
Proof. intros Hn. unfold get_prev. rewrite deref_Some, Hn. reflexivity. Qed.

Lemma get_next_Some h a n : h !! a = Some n → get_next h (Some a) = Some (next n).
Proof. intros Hn. unfold get_next. rewrite deref_Some, Hn. reflexivity. Qed.

Lemma set_prev_Some h a n v :
  h !! a = Some n → set_prev h (Some a) v = Some (<[a := mk_element v (next n)]> h).
Proof. intros Hn. unfold set_prev. simpl. rewrite Hn. reflexivity. Qed.

Lemma set_next_Some h a n v :
  h !! a = Some n → set_next h (Some a) v = Some (<[a := mk_element (prev n) v]> h).
Proof. intros Hn. unfold set_next. simpl. rewrite Hn. reflexivity. Qed.

(** A successful load names an allocated node. *)
Lemma get_prev_inv h p v :
  get_prev h p = Some v → ∃ a n, p = Some a ∧ h !! a = Some n ∧ prev n = v.
Proof.
  destruct p as [a|]; [|discriminate]. unfold get_prev. rewrite deref_Some.
  destruct (h !! a) as [n|] eqn:Hn; [|discriminate].
  intros [= <-]. eauto.
Qed.

Lemma get_next_inv h p v :
  get_next h p = Some v → ∃ a n, p = Some a ∧ h !! a = Some n ∧ next n = v.
Proof.
  destruct p as [a|]; [|discriminate]. unfold get_next. rewrite deref_Some.
  destruct (h !! a) as [n|] eqn:Hn; [|discriminate].
  intros [= <-]. eauto.
Qed.

Lemma set_prev_inv h p v h' :
  set_prev h p v = Some h' →
  ∃ a n, p = Some a ∧ h !! a = Some n ∧ h' = <[a := mk_element v (next n)]> h.
Proof.
  destruct p as [a|]; [|discriminate]. unfold set_prev. simpl.
  destruct (h !! a) as [n|] eqn:Hn; [|discriminate].
  intros [= <-]. eauto.
Qed.

Lemma set_next_inv h p v h' :
  set_next h p v = Some h' →
  ∃ a n, p = Some a ∧ h !! a = Some n ∧ h' = <[a := mk_element (prev n) v]> h.
Proof.
  destruct p as [a|]; [|discriminate]. unfold set_next. simpl.
  destruct (h !! a) as [n|] eqn:Hn; [|discriminate].
  intros [= <-]. eauto.
Qed.

(** A store never frees or allocates: the set of nodes is unchanged. *)
Lemma set_prev_alloc h p v h' b :
  set_prev h p v = Some h' → is_Some (h' !! b) ↔ is_Some (h !! b).
Proof.
  intros (a & n & -> & Hn & ->)%set_prev_inv.
  destruct (decide (a = b)) as [->|Hne].
  - rewrite lookup_insert_eq, Hn. split; eauto.
  - rewrite lookup_insert_ne by done. reflexivity.
Qed.

Lemma set_next_alloc h p v h' b :
  set_next h p v = Some h' → is_Some (h' !! b) ↔ is_Some (h !! b).
Proof.
  intros (a & n & -> & Hn & ->)%set_next_inv.
  destruct (decide (a = b)) as [->|Hne].
  - rewrite lookup_insert_eq, Hn. split; eauto.
  - rewrite lookup_insert_ne by done. reflexivity.
Qed.

Lemma set_prev_defined h a v : is_Some (h !! a) → is_Some (set_prev h (Some a) v).
Proof. intros [n Hn]. rewrite (set_prev_Some _ _ _ _ Hn). eauto. Qed.

Lemma set_next_defined h a v : is_Some (h !! a) → is_Some (set_next h (Some a) v).
Proof. intros [n Hn]. rewrite (set_next_Some _ _ _ _ Hn). eauto. Qed.
End HeapFacts.

(** ** [unlink] *)

Section Unlink.
Implicit Types (h : heap) (a : positive) (this : ptr).

(** On a node whose two fields are null, [unlink] writes nothing. *)
Lemma unlink_unlinked h a : h !! a = Some unlinked → unlink h (Some a) = Some h.
Proof.
  intros Ha. unfold unlink.
  rewrite (get_prev_Some _ _ _ Ha). cbn [prev unlinked mbind option_bind].
  rewrite (get_next_Some _ _ _ Ha). cbn [next unlinked mbind option_bind].
  rewrite (set_next_Some _ _ _ _ Ha). cbn [prev unlinked mbind option_bind].
  change (mk_element None None) with unlinked.
  rewrite (insert_id _ _ _ Ha).
  rewrite (set_prev_Some _ _ _ _ Ha). cbn [next unlinked].
  change (mk_element None None) with unlinked.
  rewrite (insert_id _ _ _ Ha). reflexivity.
Qed.

(** Whatever the chain looked like, [unlink] leaves its node with two
    null fields. *)
Lemma unlink_leaves_unlinked h a h' :
  unlink h (Some a) = Some h' → h' !! a = Some unlinked.
Proof.
  unfold unlink. intros H.
  apply bind_Some in H as (p & _ & H).
  apply bind_Some in H as (h1 & _ & H).
  apply bind_Some in H as (n & _ & H).
  apply bind_Some in H as (h2 & _ & H).
  apply bind_Some in H as (h3 & H3 & H).
  apply set_next_inv in H3 as (a3 & n3 & [= <-] & Hn3 & ->).
  apply set_prev_inv in H as (a4 & n4 & [= <-] & Hn4 & ->).
  rewrite lookup_insert_eq in Hn4. injection Hn4 as <-.
  rewrite lookup_insert_eq. reflexivity.
Qed.

(** Writing back into a neighbour the value [this] already holds there
    leaves [this] as it was, also when the neighbour is [this]. *)
Lemma set_next_keeps h a n p h' :
  h !! a = Some n → set_next h p (next n) = Some h' → h' !! a = Some n.
Proof.
  intros Ha (b & m & -> & Hm & ->)%set_next_inv.
  destruct (decide (b = a)) as [->|Hne].
  - rewrite lookup_insert_eq. rewrite Ha in Hm. injection Hm as <-.
    by destruct n.
  - by rewrite lookup_insert_ne.
Qed.

Lemma set_prev_keeps h a n p h' :
  h !! a = Some n → set_prev h p (prev n) = Some h' → h' !! a = Some n.
Proof.
  intros Ha (b & m & -> & Hm & ->)%set_prev_inv.
  destruct (decide (b = a)) as [->|Hne].
  - rewrite lookup_insert_eq. rewrite Ha in Hm. injection Hm as <-.
    by destruct n.
  - by rewrite lookup_insert_ne.
Qed.

(** [unlink] runs to completion as soon as the node and the neighbours
    it names are allocated. *)
Lemma unlink_defined h a n :
  h !! a = Some n →
  (∀ p, prev n = Some p → is_Some (h !! p)) →
  (∀ q, next n = Some q → is_Some (h !! q)) →
  is_Some (unlink h (Some a)).
Proof.
  intros Ha Hp Hq. unfold unlink.
  rewrite (get_prev_Some _ _ _ Ha). cbn [mbind option_bind].
  assert (∃ h1, (if prev n is Some _
                 then n0 ← get_next h (Some a); set_next h (prev n) n0
                 else Some h) = Some h1
                ∧ h1 !! a = Some n
                ∧ (∀ b, is_Some (h1 !! b) ↔ is_Some (h !! b)))
    as (h1 & -> & Ha1 & A1).
  { destruct (prev n) as [p|] eqn:Ep.
    - rewrite (get_next_Some _ _ _ Ha). cbn [mbind option_bind].
      destruct (set_next_defined h p (next n) (Hp p eq_refl)) as [h1 E1].
      exists h1. split; [done|]. split.
      + by eapply set_next_keeps.
      + intros b. by eapply set_next_alloc.
    - exists h. done. }
  cbn [mbind option_bind]. rewrite (get_next_Some _ _ _ Ha1). cbn [mbind option_bind].
  assert (∃ h2, (if next n is Some _
                 then p' ← get_prev h1 (Some a); set_prev h1 (next n) p'
                 else Some h1) = Some h2
                ∧ h2 !! a = Some n) as (h2 & -> & Ha2).
  { destruct (next n) as [q|] eqn:Eq.
    - rewrite (get_prev_Some _ _ _ Ha1). cbn [mbind option_bind].
      assert (is_Some (h1 !! q)) as Hq1 by (apply A1; eauto).
      destruct (set_prev_defined h1 q (prev n) Hq1) as [h2 E2].
      exists h2. split; [done|]. by eapply set_prev_keeps.
    - exists h1. done. }
  cbn [mbind option_bind]. rewrite (set_next_Some _ _ _ _ Ha2). cbn [mbind option_bind].
  apply set_prev_defined. rewrite lookup_insert_eq. eauto.
Qed.
(** C7.  [unlink()] is idempotent: running it twice in a row on a node
    gives the heap that running it once gives (a fault of the first run
    is a fault of both), and on a node whose [prev] and [next] are both
    null it changes nothing at all. *)
Theorem unlink_idempotent h this :
  (h' ← unlink h this; unlink h' this) = unlink h this
  ∧ (deref h this = Some unlinked → unlink h this = Some h).
Proof.
  split.
  - destruct (unlink h this) as [h'|] eqn:E; [|reflexivity].
    cbn [mbind option_bind].
    destruct this as [a|]; [|discriminate].
    apply unlink_unlinked. by eapply unlink_leaves_unlinked.
  - destruct this as [a|]; [|discriminate].
    rewrite deref_Some. apply unlink_unlinked.
Qed.

Lemma unlink_idempotent_witness :
  deref Scenario.objects (Some Scenario.elem_a) = Some unlinked
  ∧ unlink Scenario.objects (Some Scenario.elem_a) = Some Scenario.objects.
Proof.
  split; [reflexivity|].
  apply (proj2 (unlink_idempotent Scenario.objects (Some Scenario.elem_a))).
  reflexivity.
Defined.

(** The first run really rewires the chain: on the middle node of
    a, b, c it joins a and c. *)
Example unlink_middle :
  unlink Scenario.chain3.1 (Some Scenario.elem_b)
  = Some (<[Scenario.elem_b := unlinked]>
            (<[Scenario.elem_c := mk_element (Some Scenario.elem_a)
                                             (Some Scenario.sentinel)]>
               (<[Scenario.elem_a := mk_element None (Some Scenario.elem_c)]>
                  Scenario.chain3.1))).
Proof. vm_compute. reflexivity. Qed.
End Unlink.

(** ** Copy construction of a link node *)

Section CopyConstruct.
Implicit Types (h : heap) (this other : positive) (n : list_element).

(** The constructed node receives both fields of its source, and the copy
    writes nowhere else. *)
Lemma copy_construct_copies h this other n :
  h !! this = None → h !! other = Some n →
  copy_construct h this (Some other) = Some (<[this := n]> h).
Proof.
  intros Hfresh Hn.
  assert (other ≠ this) as Hne by congruence.
  unfold copy_construct.
  assert (<[this := unlinked]> h !! other = Some n) as H0
    by by rewrite lookup_insert_ne.
  rewrite (get_prev_Some _ _ _ H0). cbn [mbind option_bind].
  rewrite (set_prev_Some _ _ unlinked) by apply lookup_insert_eq.
  cbn [mbind option_bind next unlinked]. rewrite insert_insert_eq.
  assert (<[this := mk_element (prev n) None]> h !! other = Some n) as H1
    by by rewrite lookup_insert_ne.
  rewrite (get_next_Some _ _ _ H1). cbn [mbind option_bind].
  rewrite (set_next_Some _ _ (mk_element (prev n) None))
    by apply lookup_insert_eq.
  cbn [prev]. rewrite insert_insert_eq. by destruct n.
Qed.

Lemma copy_construct_frame h this other n h' b :
  h !! this = None → h !! other = Some n →
  copy_construct h this (Some other) = Some h' →
  b ≠ this → h' !! b = h !! b.
Proof.
  intros Hfresh Hn Hc Hb.
  rewrite (copy_construct_copies _ _ _ _ Hfresh Hn) in Hc.
  injection Hc as <-. by rewrite lookup_insert_ne.
Qed.

(** C8.  Copy construction does copy [prev] and [next]: the copy of the
    middle node b of the chain a, b, c, built at a fresh address, holds
    [prev = &a] and [next = &c], not two nulls.  No existing node is
    written by the copy itself, yet no neighbour points back at the new
    node, and unlinking the copy takes the original b out of the chain:
    a and c become adjacent while b still names them. *)
Theorem copy_construct_duplicates_links :
  ∃ h',
    copy_construct Scenario.chain3.1 Scenario.spare (Some Scenario.elem_b)
    = Some h'
    ∧ h' !! Scenario.spare
      = Some (mk_element (Some Scenario.elem_a) (Some Scenario.elem_c))
    ∧ h' !! Scenario.spare ≠ Some unlinked
    ∧ (∀ b, b ≠ Scenario.spare → h' !! b = Scenario.chain3.1 !! b)
    ∧ ∃ h'',
        unlink h' (Some Scenario.spare) = Some h''
        ∧ get_next h'' (Some Scenario.elem_a) = Some (Some Scenario.elem_c)
        ∧ get_prev h'' (Some Scenario.elem_c) = Some (Some Scenario.elem_a)
        ∧ h'' !! Scenario.elem_b
          = Some (mk_element (Some Scenario.elem_a) (Some Scenario.elem_c)).
Proof.
  eexists. split.
  { apply (copy_construct_copies _ _ _
             (mk_element (Some Scenario.elem_a) (Some Scenario.elem_c)));
      reflexivity. }
  split; [reflexivity|]. split; [by vm_compute|]. split.
  { intros b Hb. by rewrite lookup_insert_ne. }
  eexists. split; [vm_compute; reflexivity|].
  repeat split.
Qed.
End CopyConstruct.

(** ** Iterators *)

Section Iterators.
Implicit Types (h : heap) (a : positive) (n : list_element)
  (it : list_iterator).

(** Prefix [++] lands on [next], prefix [--] on [prev]. *)
Lemma pre_incr_next h a n :
  h !! a = Some n →
  pre_incr h (mk_iterator (Some a)) = Some (mk_iterator (next n)).
Proof.
  intros Hn. unfold pre_incr. cbn [current].
  by rewrite (get_next_Some _ _ _ Hn).
Qed.

Lemma pre_decr_prev h a n :
  h !! a = Some n →
  pre_decr h (mk_iterator (Some a)) = Some (mk_iterator (prev n)).
Proof.
  intros Hn. unfold pre_decr. cbn [current].
  by rewrite (get_prev_Some _ _ _ Hn).
Qed.

(** Postfix [++] lands on [next] and hands back the position it left. *)
Lemma post_incr_next h a n :
  h !! a = Some n →
  post_incr h (mk_iterator (Some a))
  = Some (mk_iterator (Some a), mk_iterator (next n)).
Proof.
  intros Hn. unfold post_incr. cbn [current].
  by rewrite (get_next_Some _ _ _ Hn).
Qed.

(** Postfix [--] hands back the position it left, and lands on [next]. *)
Lemma post_decr_next h a n :
  h !! a = Some n →
  post_decr h (mk_iterator (Some a))
  = Some (mk_iterator (Some a), mk_iterator (next n)).
Proof.
  intros Hn. unfold post_decr. cbn [current].
  by rewrite (get_next_Some _ _ _ Hn).
Qed.

Lemma post_decr_is_post_incr h it : post_decr h it = post_incr h it.
Proof. reflexivity. Qed.

(** C10.  On the middle node b of the chain a, b, c: [++it] and [it++]
    move to c and [--it] moves to a, the postfix forms returning the
    iterator at b; but [it--] moves to c, the node's [next], where the
    claim has it move to a, the node's [prev]. *)
Theorem postfix_decrement_moves_forward :
  let h := Scenario.chain3.1 in
  let at_a := mk_iterator (Some Scenario.elem_a) in
  let at_b := mk_iterator (Some Scenario.elem_b) in
  let at_c := mk_iterator (Some Scenario.elem_c) in
  get_prev h (current at_b) = Some (current at_a)
  ∧ get_next h (current at_b) = Some (current at_c)
  ∧ pre_incr h at_b = Some at_c
  ∧ pre_decr h at_b = Some at_a
  ∧ post_incr h at_b = Some (at_b, at_c)
  ∧ post_decr h at_b = Some (at_b, at_c)
  ∧ post_decr h at_b ≠ Some (at_b, at_a).
Proof.
  cbv zeta. repeat split; try reflexivity. by vm_compute.
Qed.
End Iterators.

(** ** The container: what each operation does to [size], [head], [tail] *)

Section Container.
Implicit Types (h : heap) (l : intrusive_list) (st : state)
  (elem : positive) (pos : list_iterator).

(** [push_back] adds exactly one to [size] and leaves [tail] alone. *)
Lemma push_back_size st elem st' :
  push_back st elem = Some st' → size st'.2 = size st.2 + 1.
Proof.
  destruct st as [h l]. unfold push_back. case_decide as Hz.
  - intros H. apply bind_Some in H as (h1 & _ & H).
    apply bind_Some in H as (h2 & _ & [= <-]). cbn. lia.
  - intros H. apply bind_Some in H as (tp & _ & H).
    apply bind_Some in H as (h1 & _ & H).
    apply bind_Some in H as (tp' & _ & H).
    apply bind_Some in H as (h2 & _ & H).
    apply bind_Some in H as (h3 & _ & H).
    apply bind_Some in H as (sz & Hsz & [= <-]). cbn.
    unfold int_incr in Hsz. case_decide; congruence.
Qed.

Lemma push_back_tail st elem st' :
  push_back st elem = Some st' → tail st'.2 = tail st.2.
Proof.
  destruct st as [h l]. unfold push_back. case_decide as Hz.
  - intros H. apply bind_Some in H as (h1 & _ & H).
    by apply bind_Some in H as (h2 & _ & [= <-]).
  - intros H. apply bind_Some in H as (tp & _ & H).
    apply bind_Some in H as (h1 & _ & H).
    apply bind_Some in H as (tp' & _ & H).
    apply bind_Some in H as (h2 & _ & H).
    apply bind_Some in H as (h3 & _ & H).
    by apply bind_Some in H as (sz & Hsz & [= <-]).
Qed.

(** So [back()], which reads [tail], answers after a [push_back] what it
    answered before: the sentinel. *)
Lemma push_back_back st elem st' :
  push_back st elem = Some st' → back st'.2 = back st.2.
Proof. apply push_back_tail. Qed.

(** [push_back] keeps the container invariant. *)
Lemma push_back_preserves_inv sentinel st elem st' :
  list_inv sentinel st → 0 ≤ size st.2 → elem ≠ sentinel →
  push_back st elem = Some st' → list_inv sentinel st'.
Proof.
  destruct st as [h l]. intros (Ht & Hiff & Hnext & Hprev) Hsz Hne.
  cbn [fst snd] in *. rewrite Ht in Hiff.
  apply get_next_inv in Hnext as (? & ns & [= <-] & Hs & Hns).
  unfold push_back. rewrite Ht. case_decide as Hz.
  - intros H. apply bind_Some in H as (h1 & H1 & H).
    apply bind_Some in H as (h2 & H2 & [= <-]).
    apply set_prev_inv in H1 as (? & ns' & [= <-] & Hs' & ->).
    apply set_next_inv in H2 as (? & ne & [= <-] & He & ->).
    rewrite Hs in Hs'. injection Hs' as <-.
    assert (<[elem := mk_element (prev ne) (Some sentinel)]>
              (<[sentinel := mk_element (Some elem) (next ns)]> h) !! sentinel
            = Some (mk_element (Some elem) None)) as Hlk.
    { rewrite lookup_insert_ne by done. rewrite lookup_insert_eq.
      by rewrite Hns. }
    repeat split; cbn [fst snd size head tail].
    + lia.
    + congruence.
    + by rewrite (get_next_Some _ _ _ Hlk).
    + rewrite decide_False by lia. exists elem. split; [done|].
      by rewrite (get_prev_Some _ _ _ Hlk).
  - destruct Hprev as (e0 & He0 & Hp).
    intros H. apply bind_Some in H as (tp & Htp & H).
    rewrite Hp in Htp. injection Htp as <-.
    apply bind_Some in H as (h1 & H1 & H).
    apply bind_Some in H as (tp' & Htp' & H).
    apply bind_Some in H as (h2 & H2 & H).
    apply bind_Some in H as (h3 & H3 & H).
    apply bind_Some in H as (sz & Hi & [= <-]).
    unfold int_incr in Hi. case_decide; [|discriminate]. injection Hi as <-.
    apply set_next_inv in H1 as (? & n0 & [= <-] & Hn0 & ->).
    apply set_prev_inv in H2 as (? & ne & [= <-] & He & ->).
    apply set_prev_inv in H3 as (? & ns3 & [= <-] & Hs3 & ->).
    rewrite !lookup_insert_ne in Hs3 by done.
    rewrite Hs in Hs3. injection Hs3 as <-.
    assert (<[sentinel := mk_element (Some elem) (next ns)]>
              (<[elem := mk_element tp' (next ne)]>
                 (<[e0 := mk_element (prev n0) (Some elem)]> h)) !! sentinel
            = Some (mk_element (Some elem) None)) as Hlk.
    { rewrite lookup_insert_eq. by rewrite Hns. }
    repeat split; cbn [fst snd size head tail].
    + lia.
    + intros Hh. apply Hiff in Hh. lia.
    + by rewrite (get_next_Some _ _ _ Hlk).
    + rewrite decide_False by lia. exists elem. split; [done|].
      by rewrite (get_prev_Some _ _ _ Hlk).
Qed.

(** [push_front] makes [head], hence [front()], the new element; in a
    non-empty list it leaves [size] as it was. *)
Lemma push_front_front st elem st' :
  push_front st elem = Some st' → front st'.2 = Some elem.
Proof.
  destruct st as [h l]. unfold push_front. case_decide as Hz.
  - intros H. apply bind_Some in H as (h1 & _ & H).
    by apply bind_Some in H as (h2 & _ & [= <-]).
  - intros H. apply bind_Some in H as (h1 & _ & H).
    by apply bind_Some in H as (h2 & _ & [= <-]).
Qed.

Lemma push_front_size st elem st' :
  push_front st elem = Some st' →
  size st'.2 = if decide (size st.2 = 0) then 1 else size st.2.
Proof.
  destruct st as [h l]. unfold push_front. cbn [snd]. case_decide as Hz.
  - intros H. apply bind_Some in H as (h1 & _ & H).
    by apply bind_Some in H as (h2 & _ & [= <-]).
  - intros H. apply bind_Some in H as (h1 & _ & H).
    by apply bind_Some in H as (h2 & _ & [= <-]).
Qed.

(** [insert], [erase] and [clear] write link fields only: [size], [head]
    and [tail] come out as they went in. *)
Lemma insert_keeps_container st pos elem st' it :
  insert st pos elem = Some (st', it) →
  st'.2 = st.2 ∧ it = mk_iterator (Some elem).
Proof.
  destruct st as [h l]. unfold insert. intros H.
  apply bind_Some in H as (pp & _ & H).
  apply bind_Some in H as (h1 & _ & H).
  apply bind_Some in H as (pn & _ & H).
  apply bind_Some in H as (h2 & _ & H).
  apply bind_Some in H as (pp' & _ & H).
  apply bind_Some in H as (h3 & _ & H).
  apply bind_Some in H as (pn' & _ & H).
  apply bind_Some in H as (h4 & _ & H).
  by injection H as <- <-.
Qed.

Lemma erase_keeps_container st pos st' it :
  erase st pos = Some (st', it) → st'.2 = st.2.
Proof.
  destruct st as [h l]. unfold erase. intros H.
  apply bind_Some in H as (pc & _ & H).
  apply bind_Some in H as (nc & _ & H).
  apply bind_Some in H as (h1 & _ & H).
  destruct pc; [|destruct nc]; by injection H as <- <-.
Qed.

(** [erase] answers the node before [pos] whenever there is one. *)
Lemma erase_returns_prev st pos st' it p :
  get_prev st.1 (iter_deref pos) = Some (Some p) →
  erase st pos = Some (st', it) → it = mk_iterator (Some p).
Proof.
  destruct st as [h l]. cbn [fst]. unfold erase. intros Hp H.
  rewrite Hp in H. cbn [mbind option_bind] in H.
  apply bind_Some in H as (nc & _ & H).
  apply bind_Some in H as (h1 & _ & H).
  by injection H as <- <-.
Qed.

Lemma clear_keeps_container fuel st st' :
  clear fuel st = Ret st' → st'.2 = st.2.
Proof.
  unfold clear. destruct (clear_loop fuel st.1 (head st.2)); [|done..].
  by intros [= <-].
Qed.
End Container.

(** ** The operations against the data model's contract *)

Section Contract.
Import Scenario.

Lemma fresh_inv : list_inv sentinel fresh.
Proof. repeat split; intros; try reflexivity; by vm_compute. Qed.

(** C1.  Not every operation keeps the invariant.  From the
    empty list, [push_front(a)] makes [tail] designate a itself, whose
    [next] is then a: the sentinel is replaced by a real element.  On the
    one-element list built by [push_back(a)], which does satisfy the
    invariant, [pop_back()] empties the list but leaves the sentinel's [prev]
    on a, and [pop_front()] resets both [head] and [tail] to null. *)
Theorem invariant_not_preserved :
  list_inv sentinel fresh
  ∧ (∃ st', push_front fresh elem_a = Some st'
            ∧ tail st'.2 = Some elem_a
            ∧ get_next st'.1 (tail st'.2) = Some (Some elem_a)
            ∧ ¬ list_inv sentinel st')
  ∧ (∃ st1, one = Some st1 ∧ list_inv sentinel st1
      ∧ (∃ st', pop_back st1 = Some st'
                ∧ size st'.2 = 0
                ∧ get_prev st'.1 (Some sentinel) = Some (Some elem_a)
                ∧ ¬ list_inv sentinel st')
      ∧ (∃ st', pop_front st1 = Some st'
                ∧ head st'.2 = None ∧ tail st'.2 = None
                ∧ ¬ list_inv sentinel st')).
Proof.
  split; [apply fresh_inv|]. split.
  - eexists. split; [vm_compute; reflexivity|].
    repeat split. intros (Ht & _). by vm_compute in Ht.
  - eexists. split; [vm_compute; reflexivity|]. split; [|split].
    + eapply (push_back_preserves_inv sentinel fresh elem_a);
        [apply fresh_inv|done|done|vm_compute; reflexivity].
    + eexists. split; [vm_compute; reflexivity|].
      repeat split. intros (_ & _ & _ & Hp). by vm_compute in Hp.
    + eexists. split; [vm_compute; reflexivity|].
      repeat split. intros (Ht & _). by vm_compute in Ht.
Qed.

(** C2.  [push_back] does add one to [size], but [back()] reads [tail],
    the sentinel, not the element just pushed; and a second [push_back]
    leaves the new element's [next] null, so that the walk from [begin()]
    to [end()] leaves the chain after b and dereferences a null pointer
    instead of stopping at the sentinel. *)
Theorem push_back_back_and_order :
  ∃ st1 st2,
    push_back fresh elem_a = Some st1
    ∧ size st1.2 = size fresh.2 + 1
    ∧ back st1.2 = Some sentinel
    ∧ back st1.2 ≠ Some elem_a
    ∧ to_list 2 st1 = Ret [elem_a]
    ∧ push_back st1 elem_b = Some st2
    ∧ size st2.2 = 2
    ∧ back st2.2 ≠ Some elem_b
    ∧ get_next st2.1 (Some elem_b) = Some None
    ∧ (∀ fuel, to_list (3 + fuel) st2 = Fault)
    ∧ (∀ fuel, to_list fuel st2 ≠ Ret [elem_a; elem_b]).
Proof.
  eexists. eexists. split; [vm_compute; reflexivity|].
  do 4 (split; [by vm_compute|]).
  split; [vm_compute; reflexivity|].
  do 3 (split; [by vm_compute|]).
  split.
  - intros fuel. vm_compute. reflexivity.
  - intros [|[|[|fuel]]]; by vm_compute.
Qed.

(** C3.  [push_front] makes [front()] the new element, but on a non-empty
    list it leaves [size] where it was: after [push_back(a)],
    [push_front(b)] yields a list of [size] 1 holding b and a. *)
Theorem push_front_size_not_incremented :
  ∃ st1 st2,
    one = Some st1
    ∧ size st1.2 = 1
    ∧ push_front st1 elem_b = Some st2
    ∧ front st2.2 = Some elem_b
    ∧ to_list 3 st2 = Ret [elem_b; elem_a]
    ∧ size st2.2 = 1
    ∧ size st2.2 ≠ size st1.2 + 1.
Proof.
  eexists. eexists. split; [vm_compute; reflexivity|].
  split; [reflexivity|]. split; [vm_compute; reflexivity|].
  repeat split; by vm_compute.
Qed.

(** C4.  On the middle element b of the list a, b, c, [erase] unlinks b
    and joins a and c, but it leaves [size] at 3 and returns an iterator
    to a, the element before b, not to c, the element after it.  On the
    list built by [push_back(a)], erasing a leaves [size] at 1 and [head]
    on the unlinked a. *)
Theorem erase_size_and_result :
  let at_a := mk_iterator (Some elem_a) in
  let at_b := mk_iterator (Some elem_b) in
  let at_c := mk_iterator (Some elem_c) in
  (∃ st' it,
      erase chain3 at_b = Some (st', it)
      ∧ st'.1 !! elem_b = Some unlinked
      ∧ get_next st'.1 (Some elem_a) = Some (Some elem_c)
      ∧ get_prev st'.1 (Some elem_c) = Some (Some elem_a)
      ∧ get_next chain3.1 (Some elem_b) = Some (Some elem_c)
      ∧ it = at_a ∧ it ≠ at_c
      ∧ size chain3.2 = 3 ∧ size st'.2 = 3)
  ∧ (∃ st1 st' it,
        one = Some st1 ∧ to_list 2 st1 = Ret [elem_a]
        ∧ erase st1 at_a = Some (st', it)
        ∧ it = mk_iterator (Some sentinel)
        ∧ size st'.2 = 1 ∧ head st'.2 = Some elem_a
        ∧ st'.1 !! elem_a = Some unlinked).
Proof.
  cbv zeta. split.
  - eexists. eexists. split; [vm_compute; reflexivity|].
    repeat split; by vm_compute.
  - eexists. eexists. eexists. split; [vm_compute; reflexivity|].
    split; [vm_compute; reflexivity|].
    split; [vm_compute; reflexivity|].
    repeat split.
Qed.

(** The list a, b, c used above is in the shape the data model asks
    for, and walks as a, b, c. *)
Lemma chain3_well_formed :
  list_inv sentinel chain3 ∧ to_list 3 chain3 = Ret [elem_a; elem_b; elem_c].
Proof.
  split; [|vm_compute; reflexivity].
  repeat split; intros; try reflexivity; try by vm_compute.
  exists elem_c. by vm_compute.
Qed.

(** [clear] on the list the constructor builds keeps it empty. *)
Lemma clear_fresh fuel : clear (S fuel) fresh = Ret fresh.
Proof. destruct fuel; vm_compute; reflexivity. Qed.

(** C5.  [clear()] unlinks the elements but writes neither [size] nor
    [head]: after [push_back(a); clear()] the list still has [size] 1 and
    [head] on a, [empty()] answers false, and the next [push_back] takes
    the non-empty branch and dereferences the sentinel's null [prev]. *)
Theorem clear_keeps_size_and_head :
  ∃ st1 st2,
    one = Some st1
    ∧ (∀ fuel, clear (2 + fuel) st1 = Ret st2)
    ∧ st2.1 !! elem_a = Some unlinked
    ∧ st2.1 !! sentinel = Some unlinked
    ∧ size st2.2 = 1
    ∧ head st2.2 = Some elem_a
    ∧ head st2.2 ≠ tail st2.2
    ∧ empty st2.2 = false
    ∧ push_back st2 elem_b = None.
Proof.
  eexists. eexists. split; [vm_compute; reflexivity|].
  split; [intros [|fuel]; vm_compute; reflexivity|].
  repeat split; by vm_compute.
Qed.
(** Whatever the position, [insert] and [push_back] never agree on the
    resulting [size]. *)
Lemma insert_push_back_size st pos elem st1 it st2 :
  insert st pos elem = Some (st1, it) → push_back st elem = Some st2 →
  size st2.2 = size st1.2 + 1.
Proof.
  intros Hi Hp. apply insert_keeps_container in Hi as [-> _].
  by eapply push_back_size.
Qed.

(** C9.  [insert(end(), a)] on the empty list writes nothing that was not
    already there: the list is still empty, [front()] is still the
    sentinel and a is still unlinked; [push_back(a)] on the same list
    gives a one-element list with a at the front. *)
Theorem insert_end_is_not_push_back :
  ∃ last st1 it st2,
    end_ fresh.1 fresh.2 = Some last
    ∧ insert fresh last elem_a = Some (st1, it)
    ∧ push_back fresh elem_a = Some st2
    ∧ st1 = fresh
    ∧ st1 ≠ st2
    ∧ size st1.2 = 0 ∧ size st2.2 = 1
    ∧ front st1.2 = Some sentinel ∧ front st2.2 = Some elem_a
    ∧ to_list 2 st1 = Ret [] ∧ to_list 2 st2 = Ret [elem_a].
Proof.
  do 4 eexists. split; [vm_compute; reflexivity|].
  split; [vm_compute; reflexivity|].
  split; [vm_compute; reflexivity|].
  repeat split; by vm_compute.
Qed.

(** Moving copies the three members and writes nothing into the source. *)
Lemma move_construct_spec l :
  move_construct l = (l, l).
Proof. by destruct l. Qed.

Lemma move_assign_spec this l_ :
  move_assign this l_ = (this, l_, l_).
Proof. reflexivity. Qed.

(** C6.  After move construction from the one-element list built by
    [push_back(a)], the destination does iterate a, but the source is
    untouched: it still has [size] 1, [head] on a and the very sentinel
    the destination uses, and it still iterates a.  When the source is
    then destroyed, its [clear()] unlinks a and the destination's walk
    faults.  Move assignment into a freshly built list writes neither
    operand: the destination stays empty. *)
Theorem move_keeps_source :
  ∃ st1,
    one = Some st1
    ∧ (let dst := (move_construct st1.2).1 in
       let src := (move_construct st1.2).2 in
       to_list 2 (st1.1, dst) = Ret [elem_a]
       ∧ size src = 1 ∧ head src = Some elem_a
       ∧ head src ≠ tail src
       ∧ tail src = tail dst
       ∧ to_list 2 (st1.1, src) = Ret [elem_a]
       ∧ ∃ st2, clear 2 (st1.1, src) = Ret st2
                ∧ to_list 2 (st2.1, dst) = Fault)
    ∧ (let this := list_new st1.1 spare in
       let r := move_assign this.2 st1.2 in
       r.1.1 = this.2 ∧ r.1.2 = st1.2 ∧ r.2 = st1.2
       ∧ size r.1.1 = 0 ∧ size r.1.2 = 1
       ∧ to_list 2 (this.1, r.1.1) = Ret []
       ∧ to_list 2 (this.1, r.1.2) = Ret [elem_a]).
Proof.
  eexists. split; [vm_compute; reflexivity|]. cbv zeta. split.
  - do 6 (split; [by vm_compute|]).
    eexists. split; vm_compute; reflexivity.
  - repeat split; by vm_compute.
Qed.
End Contract.

(** ** Comparison of link nodes *)

Section ElementComparison.
Implicit Types (this elem : list_element).

(** X1.  [operator==] compares [prev] only: its second conjunct compares
    [elem.next] with itself, so two nodes with the same [prev] are equal
    whatever their [next].  [operator!=] is the negation of [operator==]. *)
Theorem element_eqb_compares_prev_only this elem :
  (element_eqb this elem = true ↔ prev elem = prev this)
  ∧ element_neqb this elem = negb (element_eqb this elem)
  ∧ (∀ p n1 n2, element_eqb (mk_element p n1) (mk_element p n2) = true).
Proof.
  unfold element_eqb, element_neqb.
  rewrite (bool_decide_eq_true_2 (next elem = next elem)) by done.
  rewrite andb_true_r, orb_false_r. repeat split.
  - apply bool_decide_eq_true_1.
  - apply bool_decide_eq_true_2.
  - intros p n1 n2. cbn [prev next].
    by rewrite !bool_decide_eq_true_2.
Qed.
End ElementComparison.

(** ** What [unlink] writes *)

Section UnlinkEffect.
Implicit Types (h : heap) (a b p q : positive) (n : list_element).

(** The three stores of [unlink], in order: into [prev] (when not null),
    into [next] (when not null), into the node itself. *)
Lemma unlink_inv h a n h' :
  h !! a = Some n → unlink h (Some a) = Some h' →
  ∃ h1 h2,
    (match prev n with
     | Some p => ∃ np, h !! p = Some np
                       ∧ h1 = <[p := mk_element (prev np) (next n)]> h
     | None => h1 = h
     end)
    ∧ h1 !! a = Some n
    ∧ (match next n with
       | Some q => ∃ nq, h1 !! q = Some nq
                         ∧ h2 = <[q := mk_element (prev n) (next nq)]> h1
       | None => h2 = h1
       end)
    ∧ h2 !! a = Some n
    ∧ h' = <[a := unlinked]> h2.
Proof.
  intros Ha. unfold unlink.
  rewrite (get_prev_Some _ _ _ Ha). cbn [mbind option_bind].
  intros H. apply bind_Some in H as (h1 & H1 & H).
  assert (h1 !! a = Some n
          ∧ match prev n with
            | Some p => ∃ np, h !! p = Some np
                              ∧ h1 = <[p := mk_element (prev np) (next n)]> h
            | None => h1 = h
            end) as [Ha1 E1].
  { destruct (prev n) as [p|].
    - rewrite (get_next_Some _ _ _ Ha) in H1. cbn [mbind option_bind] in H1.
      split; [by eapply set_next_keeps|].
      apply set_next_inv in H1 as (? & np & [= <-] & Hp & ->). eauto.
    - injection H1 as <-. done. }
  rewrite (get_next_Some _ _ _ Ha1) in H. cbn [mbind option_bind] in H.
  apply bind_Some in H as (h2 & H2 & H).
  assert (h2 !! a = Some n
          ∧ match next n with
            | Some q => ∃ nq, h1 !! q = Some nq
                              ∧ h2 = <[q := mk_element (prev n) (next nq)]> h1
            | None => h2 = h1
            end) as [Ha2 E2].
  { destruct (next n) as [q|].
    - rewrite (get_prev_Some _ _ _ Ha1) in H2. cbn [mbind option_bind] in H2.
      split; [by eapply set_prev_keeps|].
      apply set_prev_inv in H2 as (? & nq & [= <-] & Hq & ->). eauto.
    - injection H2 as <-. done. }
  rewrite (set_next_Some _ _ _ _ Ha2) in H. cbn [mbind option_bind] in H.
  rewrite (set_prev_Some _ _ (mk_element (prev n) None)) in H
    by apply lookup_insert_eq.
  injection H as <-. rewrite insert_insert_eq.
  exists h1, h2. done.
Qed.

(** X2.  [unlink] writes the node, the node its [prev] names and the node its
    [next] names, and no other: every other node of the heap is as it was.
    It never allocates or frees a node. *)
Theorem unlink_frame h a n h' :
  h !! a = Some n → unlink h (Some a) = Some h' →
  (∀ b, b ≠ a → prev n ≠ Some b → next n ≠ Some b → h' !! b = h !! b)
  ∧ (∀ b, is_Some (h' !! b) ↔ is_Some (h !! b)).
Proof.
  intros Ha Hu.
  destruct (unlink_inv _ _ _ _ Ha Hu) as (h1 & h2 & E1 & Ha1 & E2 & Ha2 & ->).
  split.
  - intros b Hba Hp Hq. rewrite lookup_insert_ne by done.
    transitivity (h1 !! b).
    + destruct (next n) as [q|]; [|by subst].
      destruct E2 as (nq & _ & ->). rewrite lookup_insert_ne; congruence.
    + destruct (prev n) as [p|]; [|by subst].
      destruct E1 as (np & _ & ->). rewrite lookup_insert_ne; congruence.
  - intros b.
    assert (is_Some (h1 !! b) ↔ is_Some (h !! b)) as A1.
    { destruct (prev n) as [p|]; [|by subst].
      destruct E1 as (np & Hp & ->).
      destruct (decide (p = b)) as [->|]; [|by rewrite lookup_insert_ne].
      rewrite lookup_insert_eq, Hp. split; eauto. }
    assert (is_Some (h2 !! b) ↔ is_Some (h1 !! b)) as A2.
    { destruct (next n) as [q|]; [|by subst].
      destruct E2 as (nq & Hq & ->).
      destruct (decide (q = b)) as [->|]; [|by rewrite lookup_insert_ne].
      rewrite lookup_insert_eq, Hq. split; eauto. }
    rewrite <- A1, <- A2.
    destruct (decide (a = b)) as [->|]; [|by rewrite lookup_insert_ne].
    rewrite lookup_insert_eq, Ha2. split; eauto.
Qed.

Lemma unlink_frame_witness :
  let h := Scenario.chain3.1 in
  ∃ h', unlink h (Some Scenario.elem_b) = Some h'
        ∧ h' !! Scenario.sentinel = h !! Scenario.sentinel.
Proof.
  cbv zeta. eexists. split; [vm_compute; reflexivity|].
  refine (proj1 (unlink_frame Scenario.chain3.1 Scenario.elem_b
                   (mk_element (Some Scenario.elem_a) (Some Scenario.elem_c))
                   _ _ _) Scenario.sentinel _ _ _).
  - reflexivity.
  - vm_compute. reflexivity.
  - by vm_compute.
  - by vm_compute.
  - by vm_compute.
Defined.

(** X3.  When [unlink] runs on a node between two others, these two end up
    pointing at each other, and the node has two null fields. *)
Theorem unlink_joins_neighbours h a n p q h' :
  h !! a = Some n → prev n = Some p → next n = Some q → p ≠ a → q ≠ a →
  unlink h (Some a) = Some h' →
  get_next h' (Some p) = Some (Some q)
  ∧ get_prev h' (Some q) = Some (Some p)
  ∧ h' !! a = Some unlinked.
Proof.
  intros Ha Hp Hq Hpa Hqa Hu.
  destruct (unlink_inv _ _ _ _ Ha Hu) as (h1 & h2 & E1 & Ha1 & E2 & Ha2 & ->).
  rewrite Hp in E1. rewrite Hq in E2.
  destruct E1 as (np & Hnp & ->). destruct E2 as (nq & Hnq & ->).
  rewrite Hp, Hq in *.
  split; [|split].
  - destruct (decide (q = p)) as [->|Hne].
    + erewrite get_next_Some.
      2:{ rewrite lookup_insert_ne by done. apply lookup_insert_eq. }
      rewrite lookup_insert_eq in Hnq. injection Hnq as <-. done.
    + erewrite get_next_Some.
      2:{ rewrite lookup_insert_ne by done. rewrite lookup_insert_ne by done.
          apply lookup_insert_eq. }
      done.
  - erewrite get_prev_Some.
    2:{ rewrite lookup_insert_ne by done. apply lookup_insert_eq. }
    done.
  - apply lookup_insert_eq.
Qed.

Lemma unlink_joins_neighbours_witness :
  ∃ h', unlink Scenario.chain3.1 (Some Scenario.elem_b) = Some h'
        ∧ get_next h' (Some Scenario.elem_a) = Some (Some Scenario.elem_c)
        ∧ get_prev h' (Some Scenario.elem_c) = Some (Some Scenario.elem_a)
        ∧ h' !! Scenario.elem_b = Some unlinked.
Proof.
  eexists. split; [vm_compute; reflexivity|].
  apply (unlink_joins_neighbours Scenario.chain3.1 Scenario.elem_b
           (mk_element (Some Scenario.elem_a) (Some Scenario.elem_c))).
  - reflexivity.
  - reflexivity.
  - reflexivity.
  - by vm_compute.
  - by vm_compute.
  - vm_compute. reflexivity.
Defined.
End UnlinkEffect.

(** ** Chains in the heap *)

Section Chains.
Implicit Types (h : heap) (x y a s : positive) (p q : ptr)
  (nodes xs ys : list positive) (n : list_element).

Lemma next_of_app xs ys q : next_of (xs ++ ys) q = next_of xs (next_of ys q).
Proof. by destruct xs. Qed.

Lemma prev_of_cons x xs p : prev_of (x :: xs) p = prev_of xs (Some x).
Proof.
  unfold prev_of. destruct xs as [|y xs]; [done|].
  rewrite last_cons_cons. destruct (last (y :: xs)) eqn:E; [done|].
  by apply last_None in E.
Qed.

Lemma prev_of_snoc xs x p : prev_of (xs ++ [x]) p = Some x.
Proof. unfold prev_of. by rewrite last_snoc. Qed.

(** Writing a node that is not on the chain leaves the chain as it is. *)
Lemma dseg_insert_notin h p nodes q a n :
  a ∉ nodes → dseg h p nodes q → dseg (<[a := n]> h) p nodes q.
Proof.
  revert p. induction nodes as [|x rest IH]; intros p Hnotin; [done|].
  intros [Hx Hrest]. apply not_elem_of_cons in Hnotin as [Hne Hnotin].
  split; [by rewrite lookup_insert_ne|]. by apply IH.
Qed.

(** A chain splits, and is put together again, at any point. *)
Lemma dseg_app h p xs ys q :
  dseg h p (xs ++ ys) q
  ↔ dseg h p xs (next_of ys q) ∧ dseg h (prev_of xs p) ys q.
Proof.
  revert p. induction xs as [|x xs IH]; intros p.
  - cbn. unfold prev_of. cbn. tauto.
  - cbn [app dseg]. rewrite next_of_app, prev_of_cons, IH. tauto.
Qed.

Lemma dseg_lookup h p nodes q x :
  dseg h p nodes q → x ∈ nodes → is_Some (h !! x).
Proof.
  revert p. induction nodes as [|y rest IH]; intros p.
  - intros _ Hin. by apply elem_of_nil in Hin.
  - intros [Hy Hrest] [->|Hin]%elem_of_cons; eauto.
Qed.

(** The last node of a chain that ends in null. *)
Lemma dseg_last h p xs s :
  dseg h p (xs ++ [s]) None → h !! s = Some (mk_element (prev_of xs p) None).
Proof. intros [_ [Hs _]]%dseg_app. exact Hs. Qed.
End Chains.

(** ** Walking and clearing a well-formed list *)

Section Walks.
Implicit Types (h : heap) (x y a s : positive) (p q : ptr)
  (nodes xs ys : list positive) (n : list_element) (st : state).

Lemma iter_neqb_same it : iter_neqb it it = false.
Proof. unfold iter_neqb, iter_eqb. by rewrite bool_decide_eq_true_2. Qed.

Lemma iter_neqb_diff x s :
  x ≠ s → iter_neqb (mk_iterator (Some x)) (mk_iterator (Some s)) = true.
Proof.
  intros Hne. unfold iter_neqb, iter_eqb. cbn [current].
  rewrite bool_decide_eq_false_2; [done|congruence].
Qed.

Lemma traverse_done fuel h it : traverse fuel h it it = Ret [].
Proof. destruct fuel; cbn [traverse]; by rewrite iter_neqb_same. Qed.

Lemma traverse_step fuel h x n s :
  x ≠ s → h !! x = Some n →
  traverse (S fuel) h (mk_iterator (Some x)) (mk_iterator (Some s))
  = match traverse fuel h (mk_iterator (next n)) (mk_iterator (Some s)) with
    | Ret xs => Ret (x :: xs)
    | r => r
    end.
Proof.
  intros Hne Hx. cbn [traverse]. rewrite (iter_neqb_diff _ _ Hne).
  cbn [iter_deref current]. by rewrite (pre_incr_next _ _ _ Hx).
Qed.

Lemma traverse_chain ys : ∀ h p s fuel,
  s ∉ ys → dseg h p (ys ++ [s]) None → (length ys ≤ fuel)%nat →
  traverse fuel h (mk_iterator (next_of ys (Some s))) (mk_iterator (Some s))
  = Ret ys.
Proof.
  induction ys as [|x ys IH]; intros h p s fuel Hs Hseg Hfuel.
  - apply traverse_done.
  - destruct fuel as [|fuel]; [cbn in Hfuel; lia|].
    apply not_elem_of_cons in Hs as [Hne Hs].
    destruct Hseg as [Hx Hrest]. cbn [next_of].
    rewrite (traverse_step _ _ _ _ _ (not_eq_sym Hne) Hx). cbn [next].
    rewrite next_of_app. cbn [next_of].
    rewrite (IH h (Some x) s fuel Hs Hrest); [done|cbn in Hfuel; lia].
Qed.

Lemma well_formed_sentinel s xs st :
  well_formed s xs st →
  (s ∉ xs) ∧ NoDup xs
  ∧ st.1 !! s = Some (mk_element (prev_of xs None) None).
Proof.
  intros (Hnd & Hseg & _). apply NoDup_app in Hnd as (Hxs & Hdisj & _).
  split; [|split; [done|by apply dseg_last]].
  intros Hin. apply (Hdisj _ Hin). by apply list_elem_of_singleton.
Qed.

Lemma to_list_chain s xs st fuel :
  well_formed s xs st → (length xs ≤ fuel)%nat → to_list fuel st = Ret xs.
Proof.
  intros Hwf Hfuel.
  destruct (well_formed_sentinel _ _ _ Hwf) as (Hs & _ & Hlk).
  destruct Hwf as (_ & Hseg & Hl). destruct st as [h l]. cbn [fst snd] in *.
  subst l. unfold to_list, end_, begin. cbn [fst snd head tail].
  rewrite (post_incr_next _ _ _ Hlk). cbn [fmap option_fmap option_map fst].
  by eapply traverse_chain.
Qed.

(** X7.  The walk from [begin()] to [end()] over a well-formed list visits its
    elements front to back and stops at the sentinel; as many steps as
    there are elements suffice. *)
Theorem to_list_well_formed s xs st fuel :
  well_formed s xs st → (length xs ≤ fuel)%nat → to_list fuel st = Ret xs.
Proof. apply to_list_chain. Qed.

Lemma chain3_wf :
  well_formed Scenario.sentinel
    [Scenario.elem_a; Scenario.elem_b; Scenario.elem_c] Scenario.chain3.
Proof.
  split; [|split].
  - apply (bool_decide_unpack (NoDup _)). vm_compute. exact I.
  - repeat split.
  - reflexivity.
Defined.

Lemma to_list_well_formed_witness :
  to_list 3 Scenario.chain3
  = Ret [Scenario.elem_a; Scenario.elem_b; Scenario.elem_c].
Proof.
  apply (to_list_well_formed Scenario.sentinel); [apply chain3_wf|].
  cbn. lia.
Defined.

Lemma clear_loop_null fuel h : clear_loop fuel h None = Ret h.
Proof. by destruct fuel. Qed.

Lemma clear_loop_chain nodes : ∀ h fuel,
  NoDup nodes → dseg h None nodes None → (length nodes ≤ fuel)%nat →
  ∃ h', clear_loop fuel h (next_of nodes None) = Ret h'
        ∧ (∀ a, a ∈ nodes → h' !! a = Some unlinked)
        ∧ (∀ a, a ∉ nodes → h' !! a = h !! a).
Proof.
  induction nodes as [|x rest IH]; intros h fuel Hnd Hseg Hfuel.
  - exists h. split; [apply clear_loop_null|]. split; [|done].
    intros a Hin. by apply elem_of_nil in Hin.
  - destruct fuel as [|fuel]; [cbn in Hfuel; lia|].
    destruct Hseg as [Hx Hrest].
    apply NoDup_cons in Hnd as [Hxrest Hnd].
    cbn [next_of clear_loop]. rewrite (get_next_Some _ _ _ Hx). cbn [next].
    destruct (unlink_defined h x _ Hx) as [h1 Hu].
    { cbn [prev]. discriminate. }
    { cbn [next]. intros y Hy. destruct rest as [|y' rest']; [discriminate|].
      injection Hy as <-. destruct Hrest as [Hy _]. eauto. }
    rewrite Hu.
    destruct (unlink_inv _ _ _ _ Hx Hu) as (h1' & h2 & E1 & _ & E2 & _ & ->).
    cbn [prev next] in E1, E2. subst h1'.
    destruct rest as [|y rest'].
    + cbn [next_of] in *. subst h2. exists (<[x := unlinked]> h).
      split; [apply clear_loop_null|]. split.
      * intros a ->%list_elem_of_singleton. apply lookup_insert_eq.
      * intros a Ha. apply not_elem_of_cons in Ha as [Ha _].
        by rewrite lookup_insert_ne.
    + cbn [next_of] in *. destruct E2 as (ny & Hy & ->).
      destruct Hrest as [Hy' Hrest']. rewrite Hy in Hy'.
      injection Hy' as ->. cbn [next] in *.
      apply not_elem_of_cons in Hxrest as [Hxy Hxrest'].
      pose proof Hnd as Hnd'. apply NoDup_cons in Hnd' as [Hyrest' _].
      destruct (IH (<[x := unlinked]>
                      (<[y := mk_element None (next_of rest' None)]> h)) fuel)
        as (h' & Hc & Hin & Hout).
      * done.
      * split.
        -- rewrite lookup_insert_ne by done. apply lookup_insert_eq.
        -- apply dseg_insert_notin; [done|]. by apply dseg_insert_notin.
      * cbn [length] in Hfuel |- *. lia.
      * exists h'. split; [exact Hc|]. split.
        -- intros a [->|Ha]%elem_of_cons; [|by apply Hin].
           rewrite Hout by (apply not_elem_of_cons; done).
           apply lookup_insert_eq.
        -- intros a Ha. apply not_elem_of_cons in Ha as [Hax Ha].
           rewrite (Hout a Ha).
           apply not_elem_of_cons in Ha as [Hay _].
           rewrite lookup_insert_ne by done. by rewrite lookup_insert_ne.
Qed.

Lemma clear_chain s xs st fuel :
  well_formed s xs st → (length xs + 1 ≤ fuel)%nat →
  ∃ h', clear fuel st = Ret (h', st.2)
        ∧ (∀ a, a ∈ xs ++ [s] → h' !! a = Some unlinked)
        ∧ (∀ a, a ∉ xs ++ [s] → h' !! a = st.1 !! a)
        ∧ (xs ≠ [] → ∀ elem, push_back (h', st.2) elem = None).
Proof.
  intros (Hnd & Hseg & Hl) Hfuel.
  destruct (clear_loop_chain (xs ++ [s]) st.1 fuel Hnd Hseg)
    as (h' & Hc & Hin & Hout).
  { rewrite length_app. cbn. lia. }
  exists h'. unfold clear. rewrite Hl at 1. cbn [head].
  rewrite next_of_app in Hc. cbn [next_of] in Hc. rewrite Hc.
  split; [done|]. split; [done|]. split; [done|].
  intros Hne elem. rewrite Hl. unfold push_back. cbn [size tail].
  rewrite decide_False by (destruct xs; [done|cbn; lia]).
  assert (h' !! s = Some unlinked) as Hs.
  { apply Hin. apply elem_of_app. right. by apply list_elem_of_singleton. }
  by rewrite (get_prev_Some _ _ _ Hs).
Qed.

(** X8.  [clear()] on a well-formed list runs to completion within one
    iteration per element plus one for the sentinel; it leaves every
    element and the sentinel with two null fields, writes no other node,
    and leaves [size], [head] and [tail] as they were.  If the list held an
    element, a [push_back] that follows dereferences a null pointer. *)
Theorem clear_well_formed s xs st fuel :
  well_formed s xs st → (length xs + 1 ≤ fuel)%nat →
  ∃ h', clear fuel st = Ret (h', st.2)
        ∧ (∀ a, a ∈ xs ++ [s] → h' !! a = Some unlinked)
        ∧ (∀ a, a ∉ xs ++ [s] → h' !! a = st.1 !! a)
        ∧ (xs ≠ [] → ∀ elem, push_back (h', st.2) elem = None).
Proof. apply clear_chain. Qed.

Lemma clear_well_formed_witness :
  ∃ h', clear 4 Scenario.chain3 = Ret (h', Scenario.chain3.2)
        ∧ h' !! Scenario.elem_b = Some unlinked
        ∧ push_back (h', Scenario.chain3.2) Scenario.spare = None.
Proof.
  destruct (clear_well_formed Scenario.sentinel
              [Scenario.elem_a; Scenario.elem_b; Scenario.elem_c]
              Scenario.chain3 4 chain3_wf)
    as (h' & Hc & Hin & _ & Hpb).
  { cbn. lia. }
  exists h'. split; [exact Hc|]. split.
  - apply Hin. apply (bool_decide_unpack (_ ∈ _)). vm_compute. exact I.
  - by apply Hpb.
Defined.
End Walks.

(** ** Removing at the two ends of a well-formed list *)

Section Pops.
Implicit Types (h : heap) (x y z a s : positive) (p q : ptr)
  (nodes xs ys rest : list positive) (n : list_element) (st : state).

Lemma int_decr_pos (k : Z) : 0 < k → int_decr k = Some (k - 1).
Proof.
  intros Hk. unfold int_decr, INT_MIN. by rewrite decide_True by lia.
Qed.

(** X9.  [pop_front()] on a well-formed list of two or more elements removes
    the first one: the list is again well-formed, on the same sentinel,
    without that element, and the element has two null fields. *)
Theorem pop_front_well_formed s x y rest st :
  well_formed s (x :: y :: rest) st →
  ∃ st', pop_front st = Some st'
         ∧ well_formed s (y :: rest) st'
         ∧ st'.1 !! x = Some unlinked.
Proof.
  destruct st as [h l]. intros (Hnd & Hseg & Hl). cbn [fst snd] in *.
  subst l. cbn [app] in Hnd, Hseg.
  destruct Hseg as (Hx & Hy & Hrest). cbn [next_of] in Hx.
  apply NoDup_cons in Hnd as [Hxn Hnd].
  apply not_elem_of_cons in Hxn as [Hxy Hxn].
  pose proof Hnd as Hnd'. apply NoDup_cons in Hnd' as [Hyn _].
  unfold pop_front. cbn [size head tail length next_of].
  rewrite decide_False by lia. rewrite decide_False by lia.
  rewrite (get_next_Some _ _ _ Hx). cbn [mbind option_bind next].
  rewrite (get_prev_Some _ _ _ Hy). cbn [mbind option_bind prev].
  rewrite (set_next_Some _ _ _ _ Hx). cbn [mbind option_bind prev].
  rewrite (set_prev_Some _ _ (mk_element (Some x) (next_of (rest ++ [s]) None)))
    by (by rewrite lookup_insert_ne).
  cbn [mbind option_bind next]. rewrite int_decr_pos by lia.
  cbn [mbind option_bind]. eexists. split; [reflexivity|].
  unfold well_formed. cbn [fst snd]. split; [split; [|split]|].
  - exact Hnd.
  - split.
    + apply lookup_insert_eq.
    + apply dseg_insert_notin; [done|]. by apply dseg_insert_notin.
  - cbn [length next_of]. f_equal. lia.
  - rewrite lookup_insert_ne by done. apply lookup_insert_eq.
Qed.

Lemma pop_front_well_formed_witness :
  ∃ st', pop_front Scenario.chain3 = Some st'
         ∧ well_formed Scenario.sentinel
             [Scenario.elem_b; Scenario.elem_c] st'
         ∧ st'.1 !! Scenario.elem_a = Some unlinked.
Proof.
  exact (pop_front_well_formed Scenario.sentinel Scenario.elem_a
           Scenario.elem_b [Scenario.elem_c] Scenario.chain3 chain3_wf).
Defined.

(** X10.  [pop_back()] on a well-formed list of two or more elements removes
    the last one from the count but makes it the node [tail] designates:
    the list is well-formed on that element as its sentinel, holding the
    elements before it, and the former sentinel has two null fields. *)
Theorem pop_back_well_formed s y ys z st :
  well_formed s (y :: ys ++ [z]) st →
  ∃ st', pop_back st = Some st'
         ∧ well_formed z (y :: ys) st'
         ∧ tail st'.2 = Some z
         ∧ st'.1 !! s = Some unlinked.
Proof.
  destruct st as [h l]. intros (Hnd & Hseg & Hl). cbn [fst snd] in *.
  subst l.
  change (y :: ys ++ [z]) with ((y :: ys) ++ [z]) in Hnd, Hseg.
  rewrite <- app_assoc in Hnd, Hseg.
  pose proof Hseg as Hsplit. apply dseg_app in Hsplit as [Hfront Hback].
  destruct Hback as (Hz & Hs & _). cbn [next_of] in Hz, Hs, Hfront.
  apply NoDup_app in Hnd as (Hnd1 & Hdisj & Hnd2).
  apply NoDup_cons in Hnd2 as [Hzs _].
  apply not_elem_of_cons in Hzs as [Hzs _].
  assert (z ∉ y :: ys) as Hz1.
  { intros Hin. apply (Hdisj _ Hin). apply elem_of_cons. by left. }
  assert (s ∉ y :: ys) as Hs1.
  { intros Hin. apply (Hdisj _ Hin). apply elem_of_cons. right.
    by apply list_elem_of_singleton. }
  unfold pop_back. cbn [size head tail]. rewrite length_cons, length_app.
  cbn [length]. rewrite decide_False by lia. rewrite decide_False by lia.
  rewrite (get_prev_Some _ _ _ Hs). cbn [mbind option_bind prev].
  rewrite (get_next_Some _ _ _ Hz). cbn [mbind option_bind next].
  rewrite (set_prev_Some _ _ _ _ Hs). cbn [mbind option_bind next].
  rewrite (set_next_Some _ _ (mk_element (prev_of (y :: ys) None) (Some s)))
    by (by rewrite lookup_insert_ne).
  cbn [mbind option_bind prev]. rewrite int_decr_pos by lia.
  cbn [mbind option_bind]. eexists. split; [reflexivity|].
  unfold well_formed. cbn [fst snd tail]. split; [split; [|split]|split].
  - apply NoDup_app. split; [done|]. split; [|apply NoDup_singleton].
    intros b Hb ->%list_elem_of_singleton. done.
  - apply dseg_app. split.
    + cbn [next_of]. apply dseg_insert_notin; [done|].
      by apply dseg_insert_notin.
    + split; [apply lookup_insert_eq|done].
  - cbn [length next_of]. f_equal. lia.
  - done.
  - rewrite lookup_insert_ne by done. apply lookup_insert_eq.
Qed.

Lemma pop_back_well_formed_witness :
  ∃ st', pop_back Scenario.chain3 = Some st'
         ∧ well_formed Scenario.elem_c
             [Scenario.elem_a; Scenario.elem_b] st'
         ∧ tail st'.2 = Some Scenario.elem_c
         ∧ st'.1 !! Scenario.sentinel = Some unlinked.
Proof.
  exact (pop_back_well_formed Scenario.sentinel Scenario.elem_a
           [Scenario.elem_b] Scenario.elem_c Scenario.chain3 chain3_wf).
Defined.

(** X11.  When [pop_front()] removes the only element, [head] and [tail] are
    both null afterwards, and every [push_back] on that list dereferences
    a null pointer. *)
Theorem pop_front_last_disables_push_back st st' :
  size st.2 = 1 → pop_front st = Some st' →
  st'.2 = mk_list 0 None None ∧ ∀ elem, push_back st' elem = None.
Proof.
  destruct st as [h l]. cbn [snd]. intros Hsz. unfold pop_front.
  rewrite decide_False by lia. rewrite decide_True by done.
  intros H. apply bind_Some in H as (h1 & _ & H).
  apply bind_Some in H as (h2 & _ & [= <-]).
  split; [done|]. intros elem. unfold push_back. cbn [size tail].
  by rewrite decide_True.
Qed.

Lemma pop_front_last_disables_push_back_witness :
  ∃ st1 st', Scenario.one = Some st1
             ∧ pop_front st1 = Some st'
             ∧ st'.2 = mk_list 0 None None
             ∧ push_back st' Scenario.elem_b = None.
Proof.
  set (st1 := default Scenario.fresh Scenario.one).
  set (st' := default st1 (pop_front st1)).
  exists st1, st'. split; [vm_compute; reflexivity|].
  split; [vm_compute; reflexivity|].
  destruct (pop_front_last_disables_push_back st1 st') as [H1 H2].
  - reflexivity.
  - vm_compute. reflexivity.
  - split; [exact H1|exact (H2 _)].
Defined.
End Pops.

(** ** Inserting at the two ends *)

Section Pushes.
Implicit Types (h : heap) (x y z a s elem : positive) (p q : ptr)
  (nodes xs ys rest : list positive) (n : list_element) (st : state).

(** A walk along a chain that ends in null and does not pass through
    the node [end()] stands on never returns a list: it runs out of budget
    or steps through the null pointer. *)
Lemma traverse_null_chain nodes : ∀ h p s fuel ys,
  s ∉ nodes → dseg h p nodes None →
  traverse fuel h (mk_iterator (next_of nodes None)) (mk_iterator (Some s))
  ≠ Ret ys.
Proof.
  induction nodes as [|x rest IH]; intros h p s fuel ys Hs Hseg.
  - cbn [next_of]. destruct fuel; cbn [traverse]; unfold iter_neqb, iter_eqb;
      cbn [current]; rewrite bool_decide_eq_false_2 by discriminate; done.
  - apply not_elem_of_cons in Hs as [Hne Hs]. destruct Hseg as [Hx Hrest].
    cbn [next_of]. destruct fuel as [|fuel].
    + cbn [traverse]. by rewrite (iter_neqb_diff _ _ (not_eq_sym Hne)).
    + rewrite (traverse_step _ _ _ _ _ (not_eq_sym Hne) Hx). cbn [next].
      destruct (traverse fuel h (mk_iterator (next_of rest None))
                  (mk_iterator (Some s))) eqn:E; [|done..].
      exfalso. exact (IH _ _ _ _ _ Hs Hrest E).
Qed.

(** X12.  [push_back] into a well-formed empty list gives the well-formed
    one-element list. *)
Theorem push_back_empty_well_formed s elem st :
  well_formed s [] st → elem ≠ s → st.1 !! elem = Some unlinked →
  ∃ st', push_back st elem = Some st' ∧ well_formed s [elem] st'.
Proof.
  destruct st as [h l]. intros (Hnd & Hseg & Hl) Hne He.
  cbn [fst snd app] in *. subst l. destruct Hseg as [Hs _].
  cbn [next_of] in Hs. unfold push_back. cbn [size tail length].
  rewrite decide_True by done.
  rewrite (set_prev_Some _ _ _ _ Hs). cbn [mbind option_bind next].
  rewrite (set_next_Some _ _ unlinked) by (by rewrite lookup_insert_ne).
  cbn [mbind option_bind]. eexists. split; [reflexivity|].
  unfold well_formed. cbn [fst snd app length next_of].
  split; [|split; [|done]].
  - apply NoDup_cons. split; [|done].
    by intros ->%list_elem_of_singleton.
  - cbn [dseg next_of]. split; [apply lookup_insert_eq|]. split; [|done].
    rewrite lookup_insert_ne by done. apply lookup_insert_eq.
Qed.

Lemma push_back_empty_well_formed_witness :
  ∃ st', push_back Scenario.fresh Scenario.elem_a = Some st'
         ∧ well_formed Scenario.sentinel [Scenario.elem_a] st'.
Proof.
  apply push_back_empty_well_formed.
  - split; [|split].
    + apply NoDup_singleton.
    + repeat split.
    + reflexivity.
  - by vm_compute.
  - reflexivity.
Defined.

(** X13.  [push_back] into a well-formed list that holds an element links the
    new element after the last one and records it in the sentinel's
    [prev], and [size] grows by one; but the new element's [next] stays
    null, so the chain from [head] now ends at the new element without
    reaching the sentinel, and no walk from [begin()] to [end()] returns. *)
Theorem push_back_nonempty_breaks_walk s ys z elem st :
  well_formed s (ys ++ [z]) st → elem ∉ (ys ++ [z]) ++ [s] →
  st.1 !! elem = Some unlinked → size st.2 < INT_MAX →
  ∃ st', push_back st elem = Some st'
         ∧ st'.2 = mk_list (size st.2 + 1) (head st.2) (Some s)
         ∧ dseg st'.1 None ((ys ++ [z]) ++ [elem]) None
         ∧ st'.1 !! s = Some (mk_element (Some elem) None)
         ∧ ∀ fuel out, to_list fuel st' ≠ Ret out.
Proof.
  destruct st as [h l]. intros Hwf Hfresh He Hmax.
  destruct (well_formed_sentinel _ _ _ Hwf) as (Hs & _ & Hlk).
  destruct Hwf as (Hnd & Hseg & Hl). cbn [fst snd] in *. subst l.
  rewrite prev_of_snoc in Hlk.
  pose proof Hseg as Hsplit. rewrite <- app_assoc in Hsplit.
  apply dseg_app in Hsplit as (Hfront & Hz & _). cbn [next_of app] in Hz, Hfront.
  apply not_elem_of_app in Hfresh as [Hexs Hes].
  apply not_elem_of_cons in Hes as [Hes _].
  apply not_elem_of_app in Hexs as [Heys Hez].
  apply not_elem_of_cons in Hez as [Hez _].
  apply not_elem_of_app in Hs as [Hsys Hsz].
  apply not_elem_of_cons in Hsz as [Hsz _].
  apply NoDup_app in Hnd as (Hnd & _ & _).
  apply NoDup_app in Hnd as (_ & Hdisj & _).
  assert (z ∉ ys) as Hzys.
  { intros Hin. apply (Hdisj _ Hin). by apply list_elem_of_singleton. }
  cbn [size head tail] in *. unfold push_back. cbn [size head tail].
  rewrite decide_False
    by (rewrite length_app; cbn [length]; lia).
  rewrite (get_prev_Some _ _ _ Hlk). cbn [mbind option_bind prev].
  rewrite (set_next_Some _ _ _ _ Hz). cbn [mbind option_bind prev].
  rewrite (get_prev_Some _ _ (mk_element (Some z) None))
    by (by rewrite lookup_insert_ne).
  cbn [mbind option_bind prev].
  rewrite (set_prev_Some _ _ unlinked) by (by rewrite lookup_insert_ne).
  cbn [mbind option_bind next unlinked].
  rewrite (set_prev_Some _ _ (mk_element (Some z) None))
    by (by rewrite !lookup_insert_ne).
  cbn [mbind option_bind next].
  unfold int_incr. rewrite decide_True by done. cbn [mbind option_bind].
  eexists. split; [reflexivity|]. cbn [fst snd].
  assert (dseg
            (<[s := mk_element (Some elem) None]>
               (<[elem := mk_element (Some z) None]>
                  (<[z := mk_element (prev_of ys None) (Some elem)]> h)))
            None ((ys ++ [z]) ++ [elem]) None) as Hchain.
  { rewrite <- app_assoc. apply dseg_app. split.
    - cbn [app next_of]. apply dseg_insert_notin; [done|].
      apply dseg_insert_notin; [done|]. by apply dseg_insert_notin.
    - cbn [app dseg next_of]. split; [|split; [|done]].
      + rewrite lookup_insert_ne by done. rewrite lookup_insert_ne by done.
        apply lookup_insert_eq.
      + rewrite lookup_insert_ne by done. apply lookup_insert_eq. }
  split; [done|]. split; [exact Hchain|].
  split; [apply lookup_insert_eq|].
  intros fuel out. unfold to_list, end_, begin. cbn [fst snd head tail].
  erewrite post_incr_next by apply lookup_insert_eq.
  cbn [fmap option_fmap option_map fst].
  replace (next_of (ys ++ [z]) (Some s))
    with (next_of ((ys ++ [z]) ++ [elem]) None)
    by (by rewrite !next_of_app).
  eapply traverse_null_chain; [|exact Hchain].
  intros Hin. apply elem_of_app in Hin as [Hin|Hin].
  - apply elem_of_app in Hin as [Hin|Hin]; [done|].
    by apply list_elem_of_singleton in Hin.
  - apply list_elem_of_singleton in Hin. done.
Qed.
Lemma push_back_nonempty_breaks_walk_witness :
  let st1 := default Scenario.fresh Scenario.one in
  ∃ st', push_back st1 Scenario.elem_b = Some st'
         ∧ st'.1 !! Scenario.sentinel
           = Some (mk_element (Some Scenario.elem_b) None)
         ∧ ∀ fuel out, to_list fuel st' ≠ Ret out.
Proof.
  intros st1.
  destruct (push_back_nonempty_breaks_walk Scenario.sentinel []
              Scenario.elem_a Scenario.elem_b st1)
    as (st' & Hp & _ & _ & Hs & Hw).
  - split; [|split].
    + apply (bool_decide_unpack (NoDup _)). vm_compute. exact I.
    + repeat split.
    + reflexivity.
  - apply (bool_decide_unpack (_ ∉ _)). vm_compute. exact I.
  - reflexivity.
  - by vm_compute.
  - exists st'. done.
Defined.

(** X14.  [push_front] into a well-formed list that holds an element links the
    new element before the first one and makes it [head]: the walk from
    [begin()] to [end()] yields the new element and then the old ones.
    [size] is left as it was, one short of the number of elements. *)
Theorem push_front_nonempty_links s x rest elem st fuel :
  well_formed s (x :: rest) st → elem ∉ (x :: rest) ++ [s] →
  st.1 !! elem = Some unlinked → (length (elem :: x :: rest) ≤ fuel)%nat →
  ∃ st', push_front st elem = Some st'
         ∧ size st'.2 = size st.2
         ∧ well_formed s (elem :: x :: rest)
             (st'.1, mk_list (size st'.2 + 1) (head st'.2) (tail st'.2))
         ∧ to_list fuel st' = Ret (elem :: x :: rest).
Proof.
  destruct st as [h l]. intros (Hnd & Hseg & Hl) Hfresh He Hfuel.
  cbn [fst snd app] in *. subst l. destruct Hseg as [Hx Hrest].
  apply not_elem_of_cons in Hfresh as [Hex Hfresh].
  unfold push_front. cbn [size head tail next_of length].
  rewrite decide_False by lia.
  rewrite (set_prev_Some _ _ _ _ Hx). cbn [mbind option_bind next].
  rewrite (set_next_Some _ _ unlinked) by (by rewrite lookup_insert_ne).
  cbn [mbind option_bind prev unlinked].
  eexists. split; [reflexivity|]. cbn [fst snd size head tail].
  split; [done|].
  assert (well_formed s (elem :: x :: rest)
            (<[elem := mk_element None (Some x)]>
               (<[x := mk_element (Some elem) (next_of (rest ++ [s]) None)]> h),
             mk_list (Z.of_nat (S (length rest)) + 1) (Some elem) (Some s)))
    as Hwf.
  { unfold well_formed. cbn [fst snd app length next_of].
    split; [|split].
    - apply NoDup_cons. split; [|done].
      apply not_elem_of_cons. done.
    - cbn [dseg next_of]. split; [apply lookup_insert_eq|]. split.
      + rewrite lookup_insert_ne by done. apply lookup_insert_eq.
      + apply NoDup_cons in Hnd as [Hxn _].
        apply dseg_insert_notin; [done|]. by apply dseg_insert_notin.
    - f_equal. lia. }
  split; [exact Hwf|].
  exact (to_list_chain _ _ _ fuel Hwf Hfuel).
Qed.

Lemma chain3_spare_wf :
  well_formed Scenario.sentinel
    [Scenario.elem_a; Scenario.elem_b; Scenario.elem_c] Scenario.chain3_spare.
Proof.
  split; [|split].
  - apply (bool_decide_unpack (NoDup _)). vm_compute. exact I.
  - repeat split.
  - reflexivity.
Defined.

Lemma push_front_nonempty_links_witness :
  ∃ st', push_front Scenario.chain3_spare Scenario.spare = Some st'
         ∧ size st'.2 = 3
         ∧ to_list 4 st'
           = Ret [Scenario.spare; Scenario.elem_a; Scenario.elem_b;
                  Scenario.elem_c].
Proof.
  destruct (push_front_nonempty_links Scenario.sentinel Scenario.elem_a
              [Scenario.elem_b; Scenario.elem_c] Scenario.spare
              Scenario.chain3_spare 4 chain3_spare_wf)
    as (st' & Hp & Hsz & _ & Hw).
  - apply (bool_decide_unpack (_ ∉ _)). vm_compute. exact I.
  - reflexivity.
  - cbn. lia.
  - exists st'. done.
Defined.

(** X15.  [push_front] into a list whose [size] is 0 makes the new element both
    [head] and [tail] and links it to itself in both directions; no other
    node is written.  [size] is 1, yet [begin()] equals [end()] and the
    walk yields no element. *)
Theorem push_front_empty_self_loop st elem n :
  size st.2 = 0 → st.1 !! elem = Some n →
  ∃ st', push_front st elem = Some st'
         ∧ st'.2 = mk_list 1 (Some elem) (Some elem)
         ∧ st'.1 = <[elem := mk_element (Some elem) (Some elem)]> st.1
         ∧ ∀ fuel, to_list fuel st' = Ret [].
Proof.
  destruct st as [h l]. cbn [fst snd]. intros Hsz He.
  unfold push_front. rewrite decide_True by done.
  rewrite (set_prev_Some _ _ _ _ He). cbn [mbind option_bind].
  rewrite (set_next_Some _ _ (mk_element (Some elem) (next n)))
    by apply lookup_insert_eq.
  cbn [mbind option_bind prev]. rewrite insert_insert_eq.
  eexists. split; [reflexivity|]. cbn [fst snd].
  split; [done|]. split; [done|].
  intros fuel. unfold to_list, end_, begin. cbn [fst snd head tail].
  erewrite post_incr_next by apply lookup_insert_eq.
  cbn [fmap option_fmap option_map fst]. apply traverse_done.
Qed.

Lemma push_front_empty_self_loop_witness :
  ∃ st', push_front Scenario.fresh Scenario.elem_a = Some st'
         ∧ st'.2 = mk_list 1 (Some Scenario.elem_a) (Some Scenario.elem_a)
         ∧ to_list 5 st' = Ret [].
Proof.
  destruct (push_front_empty_self_loop Scenario.fresh Scenario.elem_a unlinked)
    as (st' & Hp & Hl & _ & Hw).
  - reflexivity.
  - reflexivity.
  - exists st'. done.
Defined.
End Pushes.

(** ** [erase] and [insert] inside a well-formed list *)

Section Middle.
Implicit Types (h : heap) (x y z a c s elem : positive) (p q : ptr)
  (nodes xs ys rest before after : list positive) (n : list_element)
  (st : state).

(** The part of the chain around a node that has a node on either side. *)
Lemma chain_around h p before a x c rest :
  NoDup (before ++ a :: x :: c :: rest) →
  dseg h p (before ++ a :: x :: c :: rest) None →
  (dseg h p before (Some a)
   ∧ h !! a = Some (mk_element (prev_of before p) (Some x))
   ∧ h !! x = Some (mk_element (Some a) (Some c))
   ∧ h !! c = Some (mk_element (Some x) (next_of rest None))
   ∧ dseg h (Some c) rest None)
  ∧ (a ≠ x ∧ a ≠ c ∧ x ≠ c)
  ∧ ((a ∉ before) ∧ (x ∉ before) ∧ (c ∉ before))
  ∧ ((a ∉ rest) ∧ (x ∉ rest) ∧ (c ∉ rest))
  ∧ NoDup before ∧ NoDup rest ∧ (∀ b, b ∈ before → b ∉ rest).
Proof.
  intros Hnd Hseg.
  apply dseg_app in Hseg as (Hfront & Ha & Hx & Hc & Hrest).
  cbn [next_of] in *.
  apply NoDup_app in Hnd as (Hnd1 & Hdisj & Hnd2).
  apply NoDup_cons in Hnd2 as [Ha2 Hnd2].
  apply NoDup_cons in Hnd2 as [Hx2 Hnd2].
  apply NoDup_cons in Hnd2 as [Hc2 Hnd2].
  apply not_elem_of_cons in Ha2 as [Hax Ha2].
  apply not_elem_of_cons in Ha2 as [Hac Ha2].
  apply not_elem_of_cons in Hx2 as [Hxc Hx2].
  assert (∀ b, b ∈ a :: x :: c :: rest → b ∉ before) as Hdisj'.
  { intros b Hb Hin. exact (Hdisj b Hin Hb). }
  repeat split; try done.
  - apply Hdisj'. set_solver.
  - apply Hdisj'. set_solver.
  - apply Hdisj'. set_solver.
  - intros b Hb Hin. apply (Hdisj b Hb). set_solver.
Qed.

(** A list followed by its sentinel is a first node and the nodes after
    it. *)
Lemma snoc_is_cons after s : ∃ c rest, after ++ [s] = c :: rest.
Proof. destruct after; cbn; eauto. Qed.

(** X16.  [erase] on an element that has an element before it takes it off
    the chain and returns an iterator to the element before it.  The
    chain is then the one of the well-formed list without the erased
    element, but [size] is not written: it is one more than the number of
    elements left. *)
Theorem erase_inner_well_formed s before a x after st :
  well_formed s (before ++ a :: x :: after) st →
  ∃ st', erase st (mk_iterator (Some x)) = Some (st', mk_iterator (Some a))
         ∧ st'.2 = st.2
         ∧ st'.1 !! x = Some unlinked
         ∧ well_formed s (before ++ a :: after)
             (st'.1, mk_list (size st.2 - 1) (head st.2) (tail st.2)).
Proof.
  destruct st as [h l]. intros (Hnd & Hseg & Hl). cbn [fst snd] in *.
  subst l. rewrite <- app_assoc in Hnd, Hseg. cbn [app] in Hnd, Hseg.
  destruct (snoc_is_cons after s) as (c & rest & Hsnoc).
  rewrite Hsnoc in Hnd, Hseg.
  destruct (chain_around _ _ _ _ _ _ _ Hnd Hseg)
    as ((Hfront & Ha & Hx & Hc & Hrest) & (Hax & Hac & Hxc)
        & (Hal & Hxl & Hcl) & (Har & Hxr & Hcr) & Hnd1 & Hndr & Hdisj).
  destruct (unlink_defined h x _ Hx) as [h' Hu].
  { cbn [prev]. intros ? [= <-]. eauto. }
  { cbn [next]. intros ? [= <-]. eauto. }
  destruct (unlink_inv _ _ _ _ Hx Hu) as (h1 & h2 & E1 & _ & E2 & _ & ->).
  cbn [prev next] in E1, E2.
  destruct E1 as (na & Ha' & ->). rewrite Ha in Ha'. injection Ha' as <-.
  destruct E2 as (nc & Hc' & ->). rewrite lookup_insert_ne in Hc' by done.
  rewrite Hc in Hc'. injection Hc' as <-. cbn [prev next] in Hu.
  unfold erase. cbn [iter_deref current].
  rewrite (get_prev_Some _ _ _ Hx). cbn [mbind option_bind prev].
  rewrite (get_next_Some _ _ _ Hx). cbn [mbind option_bind next].
  rewrite Hu. cbn [mbind option_bind].
  eexists. split; [reflexivity|]. cbn [fst snd size head tail].
  split; [done|]. split; [apply lookup_insert_eq|].
  unfold well_formed. cbn [fst snd]. split; [|split].
  - rewrite <- app_assoc. cbn [app]. rewrite Hsnoc.
    apply NoDup_app. split; [done|]. split.
    + intros b Hb Hin. apply elem_of_cons in Hin as [->|Hin]; [done|].
      apply elem_of_cons in Hin as [->|Hin]; [done|].
      exact (Hdisj b Hb Hin).
    + apply NoDup_cons. split; [by apply not_elem_of_cons|].
      apply NoDup_cons. split; done.
  - rewrite <- app_assoc. cbn [app]. rewrite Hsnoc.
    apply dseg_app. cbn [next_of dseg]. split; [|split; [|split]].
    + apply dseg_insert_notin; [done|]. apply dseg_insert_notin; [done|].
      by apply dseg_insert_notin.
    + rewrite lookup_insert_ne by done. rewrite lookup_insert_ne by done.
      apply lookup_insert_eq.
    + rewrite lookup_insert_ne by done. apply lookup_insert_eq.
    + apply dseg_insert_notin; [done|]. apply dseg_insert_notin; [done|].
      by apply dseg_insert_notin.
  - rewrite !length_app. cbn [length]. rewrite !next_of_app. cbn [next_of].
    f_equal. lia.
Qed.

Lemma erase_inner_well_formed_witness :
  ∃ st', erase Scenario.chain3 (mk_iterator (Some Scenario.elem_b))
         = Some (st', mk_iterator (Some Scenario.elem_a))
         ∧ st'.2 = Scenario.chain3.2
         ∧ st'.1 !! Scenario.elem_b = Some unlinked
         ∧ well_formed Scenario.sentinel [Scenario.elem_a; Scenario.elem_c]
             (st'.1, mk_list 2 (Some Scenario.elem_a)
                       (Some Scenario.sentinel)).
Proof.
  exact (erase_inner_well_formed Scenario.sentinel [] Scenario.elem_a
           Scenario.elem_b [Scenario.elem_c] Scenario.chain3 chain3_wf).
Defined.
(** X17.  [erase] on the first element takes it off the chain and returns an
    iterator to the node after it; the chain is then the one of the
    well-formed list without that element.  [head] is not written: it
    still designates the erased element, whose fields are null, so the
    walk from [begin()] steps through a null pointer. *)
Theorem erase_first_keeps_head s x xs st :
  well_formed s (x :: xs) st →
  ∃ st', erase st (begin st.2)
         = Some (st', mk_iterator (next_of xs (Some s)))
         ∧ st'.2 = st.2
         ∧ st'.1 !! x = Some unlinked
         ∧ well_formed s xs
             (st'.1,
              mk_list (size st.2 - 1) (next_of xs (Some s)) (tail st.2))
         ∧ ∀ fuel, to_list (2 + fuel) st' = Fault.
Proof.
  destruct st as [h l]. intros (Hnd & Hseg & Hl). cbn [fst snd] in *.
  subst l. cbn [app] in Hnd, Hseg.
  assert (s ∈ xs ++ [s]) as Hsin.
  { apply elem_of_app. right. by apply list_elem_of_singleton. }
  destruct (snoc_is_cons xs s) as (c & rest & Hsnoc).
  assert (next_of xs (Some s) = Some c) as Hhead.
  { change (Some s) with (next_of [s] None).
    by rewrite <- next_of_app, Hsnoc. }
  rewrite Hhead. rewrite Hsnoc in Hnd, Hseg, Hsin.
  destruct Hseg as (Hx & Hc & Hrest). cbn [next_of] in Hx |- *.
  apply NoDup_cons in Hnd as [Hxn Hnd].
  pose proof Hxn as Hxn'. apply not_elem_of_cons in Hxn' as [Hxc Hxr].
  pose proof Hnd as Hnd'. apply NoDup_cons in Hnd' as [Hcr _].
  destruct (unlink_defined h x _ Hx) as [h' Hu].
  { cbn [prev]. discriminate. }
  { cbn [next]. intros ? [= <-]. eauto. }
  destruct (unlink_inv _ _ _ _ Hx Hu) as (h1 & h2 & E1 & _ & E2 & _ & ->).
  cbn [prev next] in E1, E2. subst h1.
  destruct E2 as (nc & Hc' & ->). rewrite Hc in Hc'. injection Hc' as <-.
  cbn [prev next] in Hu.
  unfold erase, begin. cbn [iter_deref current head].
  rewrite (get_prev_Some _ _ _ Hx). cbn [mbind option_bind prev].
  rewrite (get_next_Some _ _ _ Hx). cbn [mbind option_bind next].
  rewrite Hu. cbn [mbind option_bind].
  eexists. split; [reflexivity|]. cbn [fst snd size head tail].
  split; [done|]. split; [apply lookup_insert_eq|].
  assert (dseg (<[x := unlinked]>
                  (<[c := mk_element None (next_of rest None)]> h))
               None (c :: rest) None) as Hchain.
  { split.
    - rewrite lookup_insert_ne by done. apply lookup_insert_eq.
    - apply dseg_insert_notin; [done|]. by apply dseg_insert_notin. }
  split.
  - unfold well_formed. cbn [fst snd]. rewrite Hsnoc.
    split; [done|]. split; [done|].
    cbn [length]. rewrite Hhead. f_equal. lia.
  - intros fuel. unfold to_list, end_. cbn [fst snd tail begin head].
    destruct (dseg_lookup _ _ _ _ s Hchain Hsin) as [ns Hs].
    rewrite (post_incr_next _ _ _ Hs).
    cbn [fmap option_fmap option_map fst].
    assert (x ≠ s) as Hxs by (by intros ->).
    change (2 + fuel)%nat with (S (S fuel)). unfold begin. cbn [head].
    erewrite traverse_step; [|done|apply lookup_insert_eq].
    cbn [next unlinked traverse]. unfold iter_neqb, iter_eqb.
    cbn [current]. by rewrite bool_decide_eq_false_2.
Qed.

Lemma erase_first_keeps_head_witness :
  ∃ st', erase Scenario.chain3 (begin Scenario.chain3.2)
         = Some (st', mk_iterator (Some Scenario.elem_b))
         ∧ head st'.2 = Some Scenario.elem_a
         ∧ st'.1 !! Scenario.elem_a = Some unlinked
         ∧ to_list 2 st' = Fault.
Proof.
  destruct (erase_first_keeps_head Scenario.sentinel Scenario.elem_a
              [Scenario.elem_b; Scenario.elem_c] Scenario.chain3 chain3_wf)
    as (st' & He & Hl & Hx & _ & Hw).
  exists st'. split; [exact He|]. split; [by rewrite Hl|].
  split; [exact Hx|exact (Hw 0%nat)].
Defined.

(** X18.  [insert(pos, elem)] at an element that has an element before it puts
    [elem] in the place of [pos]: the list is again well-formed, with
    [elem] where [pos] was and as many elements as [size] says.  The node
    of [pos] is not written: it keeps its two links into the chain it is
    no longer on. *)
Theorem insert_inner_replaces s before a x after elem ne st :
  well_formed s (before ++ a :: x :: after) st →
  elem ∉ (before ++ a :: x :: after) ++ [s] →
  st.1 !! elem = Some ne →
  ∃ st', insert st (mk_iterator (Some x)) elem
         = Some (st', mk_iterator (Some elem))
         ∧ well_formed s (before ++ a :: elem :: after) st'
         ∧ st'.1 !! x = st.1 !! x.
Proof.
  destruct st as [h l]. intros (Hnd & Hseg & Hl) Hfresh He.
  cbn [fst snd] in *. subst l.
  rewrite <- app_assoc in Hnd, Hseg, Hfresh. cbn [app] in Hnd, Hseg, Hfresh.
  destruct (snoc_is_cons after s) as (c & rest & Hsnoc).
  rewrite Hsnoc in Hnd, Hseg, Hfresh.
  destruct (chain_around _ _ _ _ _ _ _ Hnd Hseg)
    as ((Hfront & Ha & Hx & Hc & Hrest) & (Hax & Hac & Hxc)
        & (Hal & Hxl & Hcl) & (Har & Hxr & Hcr) & Hnd1 & Hndr & Hdisj).
  apply not_elem_of_app in Hfresh as [Hel Hfresh].
  apply not_elem_of_cons in Hfresh as [Hea Hfresh].
  apply not_elem_of_cons in Hfresh as [Hex Hfresh].
  apply not_elem_of_cons in Hfresh as [Hec Her].
  unfold insert. cbn [iter_deref current].
  rewrite (get_prev_Some _ _ _ Hx). cbn [mbind option_bind prev].
  rewrite (set_next_Some _ _ _ _ Ha). cbn [mbind option_bind prev].
  rewrite (get_next_Some _ _ (mk_element (Some a) (Some c)))
    by (by rewrite lookup_insert_ne).
  cbn [mbind option_bind next].
  rewrite (set_prev_Some _ _ (mk_element (Some x) (next_of rest None)))
    by (by rewrite lookup_insert_ne).
  cbn [mbind option_bind next].
  rewrite (get_prev_Some _ _ (mk_element (Some a) (Some c)))
    by (by rewrite !lookup_insert_ne).
  cbn [mbind option_bind prev].
  rewrite (set_prev_Some _ _ ne) by (by rewrite !lookup_insert_ne).
  cbn [mbind option_bind].
  rewrite (get_next_Some _ _ (mk_element (Some a) (Some c)))
    by (by rewrite !lookup_insert_ne).
  cbn [mbind option_bind next].
  rewrite (set_next_Some _ _ (mk_element (Some a) (next ne)))
    by apply lookup_insert_eq.
  cbn [mbind option_bind prev]. rewrite insert_insert_eq.
  eexists. split; [reflexivity|]. cbn [fst snd].
  split; [|by rewrite !lookup_insert_ne].
  unfold well_formed. cbn [fst snd]. split; [|split].
  - rewrite <- app_assoc. cbn [app]. rewrite Hsnoc.
    apply NoDup_app. split; [done|]. split.
    + intros b Hb Hin. apply elem_of_cons in Hin as [->|Hin]; [done|].
      apply elem_of_cons in Hin as [->|Hin]; [done|].
      apply elem_of_cons in Hin as [->|Hin]; [done|].
      exact (Hdisj b Hb Hin).
    + apply NoDup_cons. split.
      { apply not_elem_of_cons. split; [done|]. by apply not_elem_of_cons. }
      apply NoDup_cons. split; [by apply not_elem_of_cons|].
      apply NoDup_cons. split; done.
  - rewrite <- app_assoc. cbn [app]. rewrite Hsnoc.
    apply dseg_app. cbn [next_of dseg]. split; [|split; [|split; [|split]]].
    + apply dseg_insert_notin; [done|]. apply dseg_insert_notin; [done|].
      by apply dseg_insert_notin.
    + rewrite lookup_insert_ne by done. rewrite lookup_insert_ne by done.
      apply lookup_insert_eq.
    + apply lookup_insert_eq.
    + rewrite lookup_insert_ne by done. apply lookup_insert_eq.
    + apply dseg_insert_notin; [done|]. apply dseg_insert_notin; [done|].
      by apply dseg_insert_notin.
  - rewrite !length_app. cbn [length]. rewrite !next_of_app. done.
Qed.

Lemma insert_inner_replaces_witness :
  ∃ st', insert Scenario.chain3_spare (mk_iterator (Some Scenario.elem_b))
           Scenario.spare
         = Some (st', mk_iterator (Some Scenario.spare))
         ∧ well_formed Scenario.sentinel
             [Scenario.elem_a; Scenario.spare; Scenario.elem_c] st'
         ∧ st'.1 !! Scenario.elem_b
           = Some (mk_element (Some Scenario.elem_a) (Some Scenario.elem_c)).
Proof.
  apply (insert_inner_replaces Scenario.sentinel [] Scenario.elem_a
           Scenario.elem_b [Scenario.elem_c] Scenario.spare unlinked
           Scenario.chain3_spare chain3_spare_wf).
  - apply (bool_decide_unpack (_ ∉ _)). vm_compute. exact I.
  - reflexivity.
Defined.
End Middle.

(** ** Further consequences *)

Section Consequences.
Implicit Types (h : heap) (x y a b s : positive) (xs : list positive)
  (n : list_element) (st : state).

(** X4.  [unlink] runs to completion whenever its node and the nodes its two
    fields name are allocated, and leaves the node with two null fields. *)
Theorem unlink_completes h a n :
  h !! a = Some n →
  (∀ p, prev n = Some p → is_Some (h !! p)) →
  (∀ q, next n = Some q → is_Some (h !! q)) →
  ∃ h', unlink h (Some a) = Some h' ∧ h' !! a = Some unlinked.
Proof.
  intros Ha Hp Hq. destruct (unlink_defined h a n Ha Hp Hq) as [h' Hu].
  exists h'. split; [done|]. by eapply unlink_leaves_unlinked.
Qed.

Lemma unlink_completes_witness :
  ∃ h', unlink Scenario.chain3.1 (Some Scenario.elem_c) = Some h'
        ∧ h' !! Scenario.elem_c = Some unlinked.
Proof.
  apply (unlink_completes Scenario.chain3.1 Scenario.elem_c
           (mk_element (Some Scenario.elem_b) (Some Scenario.sentinel))).
  - reflexivity.
  - intros p [= <-]. vm_compute. eauto.
  - intros q [= <-]. vm_compute. eauto.
Defined.

(** X5.  The copy constructor builds a node with the very [prev] and [next]
    of its source and writes no node that existed before. *)
Theorem copy_construct_memberwise h this other n :
  h !! this = None → h !! other = Some n →
  ∃ h', copy_construct h this (Some other) = Some h'
        ∧ h' !! this = Some n
        ∧ ∀ b, b ≠ this → h' !! b = h !! b.
Proof.
  intros Hfresh Hn. exists (<[this := n]> h).
  split; [by apply copy_construct_copies|].
  split; [apply lookup_insert_eq|].
  intros b Hb. by rewrite lookup_insert_ne.
Qed.

Lemma copy_construct_memberwise_witness :
  ∃ h', copy_construct Scenario.chain3.1 Scenario.spare
          (Some Scenario.elem_a) = Some h'
        ∧ h' !! Scenario.spare
          = Some (mk_element None (Some Scenario.elem_b))
        ∧ ∀ b, b ≠ Scenario.spare → h' !! b = Scenario.chain3.1 !! b.
Proof.
  apply copy_construct_memberwise; reflexivity.
Defined.

(** X6.  Where two nodes are linked to each other, [--] undoes [++]. *)
Theorem incr_then_decr h a b na nb :
  h !! a = Some na → next na = Some b →
  h !! b = Some nb → prev nb = Some a →
  (it ← pre_incr h (mk_iterator (Some a)); pre_decr h it)
  = Some (mk_iterator (Some a)).
Proof.
  intros Ha Hab Hb Hba.
  rewrite (pre_incr_next _ _ _ Ha), Hab. cbn [mbind option_bind].
  by rewrite (pre_decr_prev _ _ _ Hb), Hba.
Qed.

Lemma incr_then_decr_witness :
  (it ← pre_incr Scenario.chain3.1 (mk_iterator (Some Scenario.elem_a));
   pre_decr Scenario.chain3.1 it)
  = Some (mk_iterator (Some Scenario.elem_a)).
Proof.
  apply (incr_then_decr Scenario.chain3.1 Scenario.elem_a Scenario.elem_b
           (mk_element None (Some Scenario.elem_b))
           (mk_element (Some Scenario.elem_a) (Some Scenario.elem_c)));
    reflexivity.
Defined.

(** X19.  After move construction the destination walks the elements of the
    source; once the source is destroyed, every one of them has null
    fields and the destination's walk steps through a null pointer. *)
Theorem move_then_destroy_source s x xs st fuel :
  well_formed s (x :: xs) st → (length (x :: xs) + 1 ≤ fuel)%nat →
  let dst := (move_construct st.2).1 in
  let src := (move_construct st.2).2 in
  to_list fuel (st.1, dst) = Ret (x :: xs)
  ∧ ∃ h', destroy fuel (st.1, src) = Ret (h', src)
          ∧ ∀ k, to_list (2 + k) (h', dst) = Fault.
Proof.
  intros Hwf Hfuel. cbv zeta. rewrite move_construct_spec. cbn [fst snd].
  destruct st as [h l]. cbn [fst snd]. split.
  - apply (to_list_chain s); [done|lia].
  - destruct (clear_chain s (x :: xs) (h, l) fuel Hwf Hfuel)
      as (h' & Hc & Hin & _ & _).
    cbn [fst snd] in *. exists h'. split; [exact Hc|].
    destruct (well_formed_sentinel _ _ _ Hwf) as (Hs & _ & _).
    destruct Hwf as (_ & _ & Hl). cbn [snd] in Hl. subst l.
    assert (h' !! x = Some unlinked) as Hx.
    { apply Hin. apply elem_of_cons. by left. }
    assert (h' !! s = Some unlinked) as Hs'.
    { apply Hin. apply elem_of_app. right. by apply list_elem_of_singleton. }
    apply not_elem_of_cons in Hs as [Hsx _].
    intros k. unfold to_list, end_, begin. cbn [fst snd head tail next_of].
    rewrite (post_incr_next _ _ _ Hs').
    cbn [fmap option_fmap option_map fst].
    change (2 + k)%nat with (S (S k)).
    rewrite (traverse_step _ _ _ _ _ (not_eq_sym Hsx) Hx).
    cbn [next unlinked traverse]. unfold iter_neqb, iter_eqb.
    cbn [current]. by rewrite bool_decide_eq_false_2.
Qed.

Lemma move_then_destroy_source_witness :
  to_list 4 (Scenario.chain3.1, (move_construct Scenario.chain3.2).1)
  = Ret [Scenario.elem_a; Scenario.elem_b; Scenario.elem_c]
  ∧ ∃ h', destroy 4 (Scenario.chain3.1, (move_construct Scenario.chain3.2).2)
          = Ret (h', (move_construct Scenario.chain3.2).2)
          ∧ ∀ k, to_list (2 + k) (h', (move_construct Scenario.chain3.2).1)
                 = Fault.
Proof.
  apply (move_then_destroy_source Scenario.sentinel Scenario.elem_a
           [Scenario.elem_b; Scenario.elem_c] Scenario.chain3 4 chain3_wf).
  cbn. lia.
Defined.

(** X20.  [pop_back()] on a well-formed one-element list empties it: [size]
    is 0, [head] is the sentinel and the element has two null fields.
    The sentinel's [prev] is not written: it still names the removed
    element, which is where [--end()] lands. *)
Theorem pop_back_single_keeps_prev s x st :
  well_formed s [x] st →
  ∃ st', pop_back st = Some st'
         ∧ st'.2 = mk_list 0 (Some s) (Some s)
         ∧ st'.1 !! x = Some unlinked
         ∧ st'.1 !! s = Some (mk_element (Some x) None)
         ∧ (e ← end_ st'.1 st'.2; pre_decr st'.1 e)
           = Some (mk_iterator (Some x)).
Proof.
  destruct st as [h l]. intros (Hnd & Hseg & Hl). cbn [fst snd app] in *.
  subst l. destruct Hseg as (Hx & Hs & _). cbn [next_of] in Hx, Hs.
  apply NoDup_cons in Hnd as [Hxs _].
  apply not_elem_of_cons in Hxs as [Hxs _].
  unfold pop_back. cbn [size head tail length next_of].
  rewrite decide_False by lia. rewrite decide_True by done.
  rewrite (set_next_Some _ _ _ _ Hx). cbn [mbind option_bind prev].
  eexists. split; [reflexivity|]. cbn [fst snd].
  assert (<[x := mk_element None None]> h !! s
          = Some (mk_element (Some x) None)) as Hs'
    by (by rewrite lookup_insert_ne).
  split; [done|]. split; [apply lookup_insert_eq|]. split; [exact Hs'|].
  unfold end_. cbn [tail]. rewrite (post_incr_next _ _ _ Hs').
  cbn [fmap option_fmap option_map fst mbind option_bind].
  by rewrite (pre_decr_prev _ _ _ Hs').
Qed.

Lemma pop_back_single_keeps_prev_witness :
  let st1 := default Scenario.fresh Scenario.one in
  ∃ st', pop_back st1 = Some st'
         ∧ st'.2 = mk_list 0 (Some Scenario.sentinel) (Some Scenario.sentinel)
         ∧ st'.1 !! Scenario.sentinel
           = Some (mk_element (Some Scenario.elem_a) None).
Proof.
  intros st1.
  destruct (pop_back_single_keeps_prev Scenario.sentinel Scenario.elem_a st1)
    as (st' & Hp & Hl & _ & Hs & _).
  - split; [|split].
    + apply (bool_decide_unpack (NoDup _)). vm_compute. exact I.
    + repeat split.
    + reflexivity.
  - exists st'. done.
Defined.
End Consequences.
